(** * pkg/metrics/store.go: the in-process metrics store

    A shallow embedding of the metrics store of sofa-mosn
    ([pkg/metrics/store.go]) and the properties of its registry:
    identity computation ([sortedLabels], [fullName]), lookup-or-create
    ([NewMetrics]), the exclusion policy ([SetStatsMatcher],
    [isExclusion]), enumeration ([GetAll]), reset ([ResetAll]) and the
    per-group instrument accessors ([Counter], [Gauge], [Histogram]).

    Go values with identity (a [*metrics], a go-metrics instrument) live in
    explicit heaps indexed by locations; a Go [map] is a [gmap]; every
    exported function is one atomic transition of the [world], which is
    what the store's mutex gives a caller. *)

From Stdlib Require Import String Ascii ZArith.
From stdpp Require Import gmap strings list fin_maps sorting pretty.

Open Scope string_scope.

(** ** Go strings and [sort.Strings] *)

(** Go compares strings bytewise, lexicographically: that is [String.le],
    the order of [String.leb].

    [sort.Strings]: the argument in increasing order.  The algorithm the
    Go runtime uses is not stable, which no caller can see on strings:
    [sort_Strings_unique] shows that every sorted rearrangement of the
    input is this one. *)
Definition sort_Strings (l : list string) : list string :=
  merge_sort String.le l.

(** [strings.Join] is [String.concat] with the separator first. *)
Definition strings_Join (elems : list string) (sep : string) : string :=
  String.concat sep elems.

(** ** Constants and errors *)

Definition maxLabelCount : nat := 10.

Definition error := string.

(** [fmt.Errorf("label count exceeded, max is %d", maxLabelCount)] *)
Definition errLabelCountExceeded : error := "label count exceeded, max is 10".

Inductive result (A : Type) : Type :=
| Ok (a : A)
| Err (e : error).
Arguments Ok {A} a.
Arguments Err {A} e.

(** ** Heap objects *)

Definition loc := positive.

(** 64-bit two's complement wrap-around of [int64] arithmetic. *)
Definition wrap64 (z : Z) : Z :=
  ((z + 2 ^ 63) mod 2 ^ 64 - 2 ^ 63)%Z.

Module gometrics.

(** Modelled from the spec: the uniform reservoir sample of the
    go-metrics library ([gometrics.NewUniformSample]), which is not part
    of [store.go].  A fixed capacity, the observations retained so far,
    and the number of observations seen. *)
Record UniformSample : Type := mkUniformSample {
  count : Z;
  reservoirSize : nat;
  values : list Z
}.

Definition NewUniformSample (reservoirSize : nat) : UniformSample :=
  mkUniformSample 0 reservoirSize [].

(** Modelled from the spec: one observation.  While the reservoir is not
    full the observation is appended; once it is full a random slot [r]
    (drawn by the caller of this model) is overwritten when it falls
    inside the reservoir, so an old sample is evicted and the size
    stays the same. *)
Definition UniformSample_Update (r : nat) (v : Z) (s : UniformSample)
    : UniformSample :=
  if decide (length (values s) < reservoirSize s)
  then mkUniformSample (wrap64 (count s + 1)) (reservoirSize s)
                       (values s ++ [v])
  else mkUniformSample (wrap64 (count s + 1)) (reservoirSize s)
                       (<[r := v]> (values s)).

(** Modelled from the spec: the instruments of go-metrics that a group
    hands out, one variant per kind; the constructor is the dynamic type
    of the object ([*StandardCounter], [*StandardGauge],
    [*StandardHistogram]) and the argument its accumulated state. *)
Inductive instrument : Type :=
| StandardCounter (count : Z)
| StandardGauge (value : Z)
| StandardHistogram (sample : UniformSample).

Definition NewCounter : instrument := StandardCounter 0.
Definition NewGauge : instrument := StandardGauge 0.
Definition NewHistogram (s : UniformSample) : instrument :=
  StandardHistogram s.

End gometrics.
Export gometrics.

(** [metrics] is a wrapper of a go-metrics registry.  The registry of a
    group is created with the group and never shared, so it is kept in
    place: a map from instrument name to the location of the instrument.
    [labelKeys] and [labelVals] are [nil] ([None]) until [SortedLabels]
    fills them. *)
Record metrics : Type := mkMetrics {
  typ : string;
  labels : gmap string string;
  labelKeys : option (list string);
  labelVals : option (list string);
  registry : gmap string loc
}.

(** A value of interface [types.Metrics]: a pointer to a [metrics] of this
    file, or the no-op group of the exclusion path. *)
Inductive types_Metrics : Type :=
| PtrMetrics (p : loc)
| NilMetrics (typ : string) (labels : gmap string string).

#[global] Instance types_Metrics_eq_dec : EqDecision types_Metrics.
Proof. solve_decision. Defined.

(** stats memory store; [store_metrics] is its field [metrics]. *)
Record store : Type := mkStore {
  rejectAll : bool;
  exclusionLabels : list string;
  store_metrics : gmap string types_Metrics
}.

(** The process: [defaultStore], the [metrics] objects allocated so far and
    the instruments allocated so far.  Nothing is ever freed. *)
Record world : Type := mkWorld {
  defaultStore : store;
  groups : gmap loc metrics;
  instruments : gmap loc instrument
}.

(** [init] *)
Definition init : world :=
  mkWorld (mkStore false [] ∅) ∅ ∅.

(** ** The registry *)

(** SetStatsMatcher sets the exclusion labels *)
Definition SetStatsMatcher (all : bool) (exclusions : list string)
    (w : world) : world :=
  let s := defaultStore w in
  mkWorld
    (mkStore (if all then true else rejectAll s) exclusions (store_metrics s))
    (groups w) (instruments w).

(** isExclusion returns the labels will be ignored or not *)
Definition isExclusion (labels : gmap string string) (w : world) : bool :=
  if rejectAll (defaultStore w) then true
  else existsb (λ label, bool_decide (is_Some (labels !! label)))
               (exclusionLabels (defaultStore w)).

(** The body of [sortedLabels] for one iteration order [range] of
    [for k := range labels]; Go leaves that order unspecified. *)
Definition sortedLabels_range (range : list string)
    (labels : gmap string string) : list string * list string :=
  let keys := sort_Strings range in
  let values := (λ k, default "" (labels !! k)) <$> keys in
  (keys, values).

Definition sortedLabels (labels : gmap string string)
    : list string * list string :=
  sortedLabels_range (map_to_list labels).*1 labels.

Definition fullName_range (range : list string) (typ : string)
    (labels : gmap string string) : string :=
  let '(keys, values) := sortedLabels_range range labels in
  let pair := zip_with (λ k v, k +:+ "." +:+ v) keys values in
  typ +:+ "." +:+ strings_Join pair ".".

Definition fullName (typ : string) (labels : gmap string string) : string :=
  fullName_range (map_to_list labels).*1 typ labels.

(** Modelled from the spec: [NewNilMetrics], which [store.go] calls and
    does not define.  It returns the no-op variant of a group, which keeps
    no state, and no error. *)
Definition NewNilMetrics (typ : string) (labels : gmap string string)
    : result types_Metrics :=
  Ok (NilMetrics typ labels).

(** NewMetrics returns a metrics.
    Same (type + labels) pair will leading to the same Metrics instance *)
Definition NewMetrics (typ : string) (labels : gmap string string)
    (w : world) : world * result types_Metrics :=
  if decide (maxLabelCount < size labels) then (w, Err errLabelCountExceeded)
  else if isExclusion labels w then (w, NewNilMetrics typ labels)
  else
    let name := fullName typ labels in
    let s := defaultStore w in
    match store_metrics s !! name with
    | Some m => (w, Ok m)
    | None =>
        let p := fresh (dom (groups w)) in
        let stats := mkMetrics typ labels None None ∅ in
        (mkWorld
           (mkStore (rejectAll s) (exclusionLabels s)
                    (<[name := PtrMetrics p]> (store_metrics s)))
           (<[p := stats]> (groups w)) (instruments w),
         Ok (PtrMetrics p))
    end.

(** GetAll returns all metrics data *)
Definition GetAll (w : world) : list types_Metrics :=
  (map_to_list (store_metrics (defaultStore w))).*2.

(** ** A group *)

(** [(s *metrics) SortedLabels], with its cache. *)
Definition SortedLabels (s : loc) (w : world)
    : option (world * (list string * list string)) :=
  g ← groups w !! s;
  match labelKeys g, labelVals g with
  | Some ks, Some vs => Some (w, (ks, vs))
  | _, _ =>
      let '(keys, values) := sortedLabels (labels g) in
      Some (mkWorld (defaultStore w)
              (<[s := mkMetrics (typ g) (labels g) (Some keys) (Some values)
                                (registry g)]> (groups w))
              (instruments w),
            (keys, values))
  end.

(** Modelled from the spec: [Registry.GetOrRegister] of go-metrics, a
    lookup-or-create in the group's instrument sub-registry keyed by the
    name alone.  An existing entry is returned whatever it is; otherwise
    the instrument [fresh_instrument] is allocated and registered.
    [None] is a nil dereference of [s]. *)
Definition GetOrRegister (s : loc) (name : string)
    (fresh_instrument : instrument) (w : world) : option (world * loc) :=
  g ← groups w !! s;
  match registry g !! name with
  | Some i => Some (w, i)
  | None =>
      let i := fresh (dom (instruments w)) in
      Some (mkWorld (defaultStore w)
              (<[s := mkMetrics (typ g) (labels g) (labelKeys g) (labelVals g)
                                (<[name := i]> (registry g))]> (groups w))
              (<[i := fresh_instrument]> (instruments w)),
            i)
  end.

(** The type assertions [.(gometrics.Counter)], [.(gometrics.Gauge)] and
    [.(gometrics.Histogram)] on what [GetOrRegister] returned.  The three
    go-metrics interfaces have no implementation in common (a counter has
    no [Update], a gauge no [Count], a histogram no [Inc]), so each
    assertion holds of exactly one kind of instrument. *)
Definition is_Counter (o : option instrument) : bool :=
  match o with Some (StandardCounter _) => true | _ => false end.
Definition is_Gauge (o : option instrument) : bool :=
  match o with Some (StandardGauge _) => true | _ => false end.
Definition is_Histogram (o : option instrument) : bool :=
  match o with Some (StandardHistogram _) => true | _ => false end.

(** [Counter], [Gauge], [Histogram]: [None] is a panic (a failed type
    assertion, or [s] dangling). *)
Definition Counter (s : loc) (key : string) (w : world)
    : option (world * loc) :=
  '(w', i) ← GetOrRegister s key NewCounter w;
  if is_Counter (instruments w' !! i) then Some (w', i) else None.

Definition Gauge (s : loc) (key : string) (w : world)
    : option (world * loc) :=
  '(w', i) ← GetOrRegister s key NewGauge w;
  if is_Gauge (instruments w' !! i) then Some (w', i) else None.

Definition Histogram (s : loc) (key : string) (w : world)
    : option (world * loc) :=
  '(w', i) ← GetOrRegister s key (NewHistogram (NewUniformSample 100)) w;
  if is_Histogram (instruments w' !! i) then Some (w', i) else None.

(** [UnregisterAll] through the interface: a [*metrics] empties its
    registry, the no-op group has nothing to empty. *)
Definition clear_registry (g : metrics) : metrics :=
  mkMetrics (typ g) (labels g) (labelKeys g) (labelVals g) ∅.

Definition UnregisterAll (m : types_Metrics) (w : world) : world :=
  match m with
  | PtrMetrics p =>
      mkWorld (defaultStore w) (alter clear_registry p (groups w))
              (instruments w)
  | NilMetrics _ _ => w
  end.

(** ResetAll is only for test and internal usage. *)
Definition ResetAll (w : world) : world :=
  let w' := foldl (λ acc m, UnregisterAll m acc) w (GetAll w) in
  mkWorld (mkStore false [] ∅) (groups w') (instruments w').

(** ** Operations on instruments *)

(** Modelled from the spec: the go-metrics methods that accumulate state in
    an instrument ([Counter.Inc], [Gauge.Update], [Histogram.Update]).
    [None] is a call on a location that holds no such instrument. *)
Definition set_instrument (i : loc) (x : instrument) (w : world) : world :=
  mkWorld (defaultStore w) (groups w) (<[i := x]> (instruments w)).

Definition Counter_Inc (i : loc) (delta : Z) (w : world) : option world :=
  match instruments w !! i with
  | Some (StandardCounter c) =>
      Some (set_instrument i (StandardCounter (wrap64 (c + delta))) w)
  | _ => None
  end.

Definition Gauge_Update (i : loc) (v : Z) (w : world) : option world :=
  match instruments w !! i with
  | Some (StandardGauge _) => Some (set_instrument i (StandardGauge v) w)
  | _ => None
  end.

Definition Histogram_Update (i : loc) (r : nat) (v : Z) (w : world)
    : option world :=
  match instruments w !! i with
  | Some (StandardHistogram s) =>
      Some (set_instrument i (StandardHistogram (UniformSample_Update r v s)) w)
  | _ => None
  end.

(** ** Call sequences *)

(** One call of the package's API by some client. *)
Inductive op : Type :=
| OpSetStatsMatcher (all : bool) (exclusions : list string)
| OpNewMetrics (typ : string) (labels : gmap string string)
| OpGetAll
| OpResetAll
| OpSortedLabels (s : loc)
| OpCounter (s : loc) (key : string)
| OpGauge (s : loc) (key : string)
| OpHistogram (s : loc) (key : string)
| OpUnregisterAll (m : types_Metrics)
| OpInc (i : loc) (delta : Z)
| OpGaugeUpdate (i : loc) (v : Z)
| OpHistogramUpdate (i : loc) (r : nat) (v : Z).

(** The world after a call; [None] when the call panics. *)
Definition step (o : op) (w : world) : option world :=
  match o with
  | OpSetStatsMatcher all exclusions => Some (SetStatsMatcher all exclusions w)
  | OpNewMetrics typ labels => Some (NewMetrics typ labels w).1
  | OpGetAll => Some w
  | OpResetAll => Some (ResetAll w)
  | OpSortedLabels s => fst <$> SortedLabels s w
  | OpCounter s key => fst <$> Counter s key w
  | OpGauge s key => fst <$> Gauge s key w
  | OpHistogram s key => fst <$> Histogram s key w
  | OpUnregisterAll m => Some (UnregisterAll m w)
  | OpInc i delta => Counter_Inc i delta w
  | OpGaugeUpdate i v => Gauge_Update i v w
  | OpHistogramUpdate i r v => Histogram_Update i r v w
  end.

Fixpoint run (ops : list op) (w : world) : option world :=
  match ops with
  | [] => Some w
  | o :: ops' => w' ← step o w; run ops' w'
  end.

(** ** Auxiliary notions of the statements *)

(** The table holds pointers to allocated groups only, and no group under
    two names. *)
Record world_ok (w : world) : Prop := mkWorldOk {
  ok_tracked : ∀ name m,
    store_metrics (defaultStore w) !! name = Some m →
    ∃ p, m = PtrMetrics p ∧ is_Some (groups w !! p);
  ok_inj : ∀ n1 n2 m,
    store_metrics (defaultStore w) !! n1 = Some m →
    store_metrics (defaultStore w) !! n2 = Some m → n1 = n2
}.

(** [ResetAll], and the call sequences without it. *)
Definition is_reset (o : op) : bool :=
  match o with OpResetAll => true | _ => false end.

Definition no_reset (ops : list op) : bool :=
  forallb (λ o, negb (is_reset o)) ops.

(** Calls that leave [defaultStore] alone and free no group. *)
Definition frames (w w' : world) : Prop :=
  defaultStore w' = defaultStore w ∧
  ∀ p, is_Some (groups w !! p) → is_Some (groups w' !! p).

(** The suffix of an identity as the specification words it: for each
    label, in the order given, [.<key>.<value>]. *)
Fixpoint identity_suffix (ps : list (string * string)) : string :=
  match ps with
  | [] => ""
  | (k, v) :: ps' => "." +:+ k +:+ "." +:+ v +:+ identity_suffix ps'
  end.

Definition by_key (a b : string * string) : Prop := String.le a.1 b.1.

(** The sample after the observations [obs], each with the random slot
    drawn for it. *)
Definition observe (obs : list (nat * Z)) (s : UniformSample)
    : UniformSample :=
  foldl (λ acc rv, UniformSample_Update rv.1 rv.2 acc) s obs.

(** The shape the three accessors share: [GetOrRegister], then the type
    assertion [is_T]. *)
Definition get_as (is_T : option instrument → bool) (x : instrument)
    (s : loc) (key : string) (w : world) : option (world * loc) :=
  '(w', i) ← GetOrRegister s key x w;
  if is_T (instruments w' !! i) then Some (w', i) else None.

(** The name [key] is free in group [g], or held by an instrument that
    passes the type assertion [is_T]. *)
Definition name_fits (is_T : option instrument → bool) (w : world)
    (g : metrics) (key : string) : Prop :=
  ∀ i, registry g !! key = Some i → is_T (instruments w !! i) = true.

(** ** A sample session *)

Definition demo_labels : gmap string string :=
  <["zone" := "a"]> (<["env" := "prod"]> ∅).

(** The same mapping, filled in the other order. *)
Definition demo_labels' : gmap string string :=
  <["env" := "prod"]> (<["zone" := "a"]> ∅).

Definition demo_ops : list op :=
  [ OpNewMetrics "http" (<["env" := "dev"]> ∅);
    OpSetStatsMatcher false ["cluster"];
    OpCounter 1%positive "hits";
    OpInc 1%positive 5;
    OpGetAll;
    OpNewMetrics "http" demo_labels ].

Definition demo_world : world :=
  default init (run demo_ops (NewMetrics "http" demo_labels init).1).

(** A group holding the name [x] as a gauge. *)
Definition gauge_world : world :=
  default init
    (run [OpNewMetrics "t" ∅; OpGauge 1%positive "x"] init).

(** ** The rest of [store.go] *)

(** [mapEqual]: the loop over [x] in the iteration order [range], which
    returns at the first key that [y] lacks or maps to another value. *)
Fixpoint mapEqual_loop (range : list (string * string))
    (y : gmap string string) : bool :=
  match range with
  | [] => true
  | (k, xv) :: rest =>
      match y !! k with
      | None => false
      | Some yv => if decide (yv ≠ xv) then false else mapEqual_loop rest y
      end
  end.

Definition mapEqual_range (range : list (string * string))
    (x y : gmap string string) : bool :=
  if decide (size x ≠ size y) then false else mapEqual_loop range y.

Definition mapEqual (x y : gmap string string) : bool :=
  mapEqual_range (map_to_list x) x y.



(** Modelled from the spec: [Registry.Each] of go-metrics, behind
    [(s *metrics) Each].  The visits of the callback, one per registered
    instrument: the name and the instrument. *)
Definition metrics_Each (s : loc) (w : world)
    : option (list (string * loc)) :=
  g ← groups w !! s; Some (map_to_list (registry g)).

(** ** Auxiliary notions of the further properties *)

(** A string without the separator of [fullName]. *)
Fixpoint no_dot (s : string) : bool :=
  match s with
  | EmptyString => true
  | String c s' => if decide (c = "."%char) then false else no_dot s'
  end.

Definition labels_no_dot (labels : gmap string string) : Prop :=
  ∀ k v, labels !! k = Some v → no_dot k = true ∧ no_dot v = true.

(** The dot-separated fields of an identity after the type: the keys
    and values in turn, or one empty field when there is no label. *)
Definition identity_fields (ps : list (string * string)) : list string :=
  match ps with
  | [] => [""]
  | _ => flat_map (λ kv, [kv.1; kv.2]) ps
  end.

(** The cache of [SortedLabels] is empty or holds what [sortedLabels]
    computes from the labels of the group. *)
Definition cache_ok (g : metrics) : Prop :=
  (labelKeys g = None ∧ labelVals g = None) ∨
  (labelKeys g = Some (sortedLabels (labels g)).1 ∧
   labelVals g = Some (sortedLabels (labels g)).2).



(** Instruments of one kind. *)
Definition same_kind (x y : instrument) : bool :=
  match x, y with
  | StandardCounter _, StandardCounter _ => true
  | StandardGauge _, StandardGauge _ => true
  | StandardHistogram _, StandardHistogram _ => true
  | _, _ => false
  end.

(** Calls that empty a registry. *)
Definition is_unregister (o : op) : bool :=
  match o with OpResetAll | OpUnregisterAll _ => true | _ => false end.

Definition no_unregister (ops : list op) : bool :=
  forallb (λ o, negb (is_unregister o)) ops.

(** The group and the name of an accessor call. *)
Definition accessor_of (o : op) : option (loc * string) :=
  match o with
  | OpCounter s key | OpGauge s key | OpHistogram s key => Some (s, key)
  | _ => None
  end.

(** The registry of group [p], at name [n]. *)
Definition registered (w : world) (p : loc) (n : string) : option loc :=
  g ← groups w !! p; registry g !! n.


(** Registered instruments are allocated, and no instrument is registered
    twice, in one group or in two. *)
Record heap_ok (w : world) : Prop := mkHeapOk {
  hok_alloc : ∀ p n i,
    registered w p n = Some i → is_Some (instruments w !! i);
  hok_inj : ∀ p1 n1 p2 n2 i,
    registered w p1 n1 = Some i → registered w p2 n2 = Some i →
    p1 = p2 ∧ n1 = n2
}.

(** * Properties *)

(** ** Sorting and the identity string *)

Lemma sort_Strings_Sorted l : Sorted String.le (sort_Strings l).
Proof. apply (Sorted_merge_sort String.le). Qed.

Lemma sort_Strings_Permutation l : sort_Strings l ≡ₚ l.
Proof. apply (merge_sort_Permutation String.le). Qed.

(** Whatever rearrangement of [l] is sorted, it is [sort_Strings l]. *)
Lemma sort_Strings_unique l l' :
  Sorted String.le l' → l' ≡ₚ l → sort_Strings l = l'.
Proof.
  intros Hs Hp. apply (Sorted_unique String.le).
  - apply sort_Strings_Sorted.
  - exact Hs.
  - rewrite sort_Strings_Permutation. by symmetry.
Qed.

Lemma sort_Strings_perm l1 l2 : l1 ≡ₚ l2 → sort_Strings l1 = sort_Strings l2.
Proof.
  intros Hp. apply sort_Strings_unique.
  - apply sort_Strings_Sorted.
  - rewrite sort_Strings_Permutation. by symmetry.
Qed.

Lemma fullName_range_perm r1 r2 typ labels :
  r1 ≡ₚ r2 → fullName_range r1 typ labels = fullName_range r2 typ labels.
Proof.
  intros Hp. unfold fullName_range, sortedLabels_range.
  by rewrite (sort_Strings_perm r1 r2 Hp).
Qed.

(** String plumbing: [+:+] is associative and [""] is neutral. *)
Lemma app_assoc_s (a b c : string) : (a +:+ b) +:+ c = a +:+ b +:+ c.
Proof.
  induction a as [|x a IH]; [done|].
  change (String x ((a +:+ b) +:+ c) = String x (a +:+ b +:+ c)).
  by rewrite IH.
Qed.

Lemma app_nil_r_s (a : string) : a +:+ "" = a.
Proof.
  induction a as [|x a IH]; [done|].
  change (String x (a +:+ "") = String x a). by rewrite IH.
Qed.

Lemma Join_pairs_suffix (ps : list (string * string)) :
  ps ≠ [] →
  "." +:+ strings_Join ((λ kv, kv.1 +:+ "." +:+ kv.2) <$> ps) "."
  = identity_suffix ps.
Proof.
  induction ps as [|[k v] ps IH]; [done|]. intros _.
  destruct ps as [|[k' v'] ps].
  - cbn [fmap list_fmap strings_Join String.concat identity_suffix fst snd].
    by rewrite app_nil_r_s.
  - specialize (IH ltac:(done)).
    cbn [identity_suffix]. cbn [identity_suffix] in IH. rewrite <- IH.
    cbn [fmap list_fmap strings_Join String.concat fst snd].
    by rewrite !app_assoc_s.
Qed.

(** The pairs [fullName] joins, read off any key-sorted enumeration of the
    labels. *)
Lemma sortedLabels_pairs (labels : gmap string string)
    (ps : list (string * string)) :
  ps ≡ₚ map_to_list labels → Sorted by_key ps →
  sortedLabels labels = (ps.*1, ps.*2).
Proof.
  intros Hp Hs. unfold sortedLabels, sortedLabels_range.
  assert (sort_Strings (map_to_list labels).*1 = ps.*1) as ->.
  { apply sort_Strings_unique.
    - by apply (Sorted_fmap _ by_key).
    - by rewrite Hp. }
  f_equal. rewrite <- list_fmap_compose. apply list_fmap_ext.
  intros i [k v] Hi. simpl.
  assert ((k, v) ∈ map_to_list labels) as Hin.
  { rewrite <- Hp. by eapply list_elem_of_lookup_2. }
  apply elem_of_map_to_list in Hin. by rewrite Hin.
Qed.

Lemma zip_with_fst_snd {A B C} (f : A → B → C) (ps : list (A * B)) :
  zip_with f ps.*1 ps.*2 = (λ kv, f kv.1 kv.2) <$> ps.
Proof. induction ps as [|[a b] ps IH]; [done|]. simpl. f_equal. exact IH. Qed.

Lemma fullName_pairs typ (labels : gmap string string)
    (ps : list (string * string)) :
  ps ≡ₚ map_to_list labels → Sorted by_key ps →
  fullName typ labels
  = typ +:+ "." +:+ strings_Join ((λ kv, kv.1 +:+ "." +:+ kv.2) <$> ps) ".".
Proof.
  intros Hp Hs. unfold fullName, fullName_range.
  fold (sortedLabels labels). rewrite (sortedLabels_pairs labels ps Hp Hs).
  cbv beta iota zeta. by rewrite zip_with_fst_snd.
Qed.

(** ** The model on sample inputs *)

Example fullName_two_labels :
  fullName "http" demo_labels = "http.env.prod.zone.a".
Proof. vm_compute. reflexivity. Qed.

Example fullName_bytewise_order :
  fullName "t" (list_to_map [("b", "1"); ("a", "2"); ("B", "3")])
  = "t.B.3.a.2.b.1".
Proof. vm_compute. reflexivity. Qed.

Example fullName_no_labels : fullName "t" ∅ = "t.".
Proof. vm_compute. reflexivity. Qed.

Example NewMetrics_ten_labels :
  (NewMetrics "t" (list_to_map ((λ n, (pretty n, "v")) <$> seq 0 10)) init).2
  = Ok (PtrMetrics 1%positive).
Proof. vm_compute. reflexivity. Qed.

Example NewMetrics_eleven_labels :
  NewMetrics "t" (list_to_map ((λ n, (pretty n, "v")) <$> seq 0 11)) init
  = (init, Err errLabelCountExceeded).
Proof. vm_compute. reflexivity. Qed.

Example NewMetrics_excluded_key :
  let w := SetStatsMatcher false ["env"] init in
  NewMetrics "http" {["env" := "prod"]} w
  = (w, Ok (NilMetrics "http" {["env" := "prod"]})).
Proof. vm_compute. reflexivity. Qed.

Example Counter_twice :
  ∃ w1 w2, Counter 1%positive "hits" (NewMetrics "t" ∅ init).1
             = Some (w1, 1%positive) ∧
           Counter_Inc 1%positive 5 w1 = Some w2 ∧
           Counter 1%positive "hits" w2 = Some (w2, 1%positive) ∧
           instruments w2 !! 1%positive = Some (StandardCounter 5).
Proof. eexists _, _. repeat split; vm_compute; reflexivity. Qed.

Example Counter_on_gauge_name : Counter 1%positive "x" gauge_world = None.
Proof. vm_compute. reflexivity. Qed.

(** ** The four outcomes of [NewMetrics] *)

Lemma NewMetrics_limit typ (labels : gmap string string) w :
  (maxLabelCount < size labels)%nat →
  NewMetrics typ labels w = (w, Err errLabelCountExceeded).
Proof. intros H. unfold NewMetrics. by rewrite decide_True. Qed.

Lemma NewMetrics_excluded typ (labels : gmap string string) w :
  (size labels ≤ maxLabelCount)%nat → isExclusion labels w = true →
  NewMetrics typ labels w = (w, Ok (NilMetrics typ labels)).
Proof.
  intros H He. unfold NewMetrics. rewrite decide_False by lia. by rewrite He.
Qed.

Lemma NewMetrics_found typ (labels : gmap string string) w m :
  (size labels ≤ maxLabelCount)%nat → isExclusion labels w = false →
  store_metrics (defaultStore w) !! fullName typ labels = Some m →
  NewMetrics typ labels w = (w, Ok m).
Proof.
  intros H He Hm. unfold NewMetrics. rewrite decide_False by lia.
  rewrite He. cbv zeta. by rewrite Hm.
Qed.

Lemma NewMetrics_created typ (labels : gmap string string) w :
  (size labels ≤ maxLabelCount)%nat → isExclusion labels w = false →
  store_metrics (defaultStore w) !! fullName typ labels = None →
  let p := fresh (dom (groups w)) in
  NewMetrics typ labels w =
    (mkWorld
       (mkStore (rejectAll (defaultStore w)) (exclusionLabels (defaultStore w))
          (<[fullName typ labels := PtrMetrics p]>
             (store_metrics (defaultStore w))))
       (<[p := mkMetrics typ labels None None ∅]> (groups w)) (instruments w),
     Ok (PtrMetrics p)).
Proof.
  intros H He Hm. unfold NewMetrics. rewrite decide_False by lia.
  rewrite He. cbv zeta. by rewrite Hm.
Qed.

Lemma fresh_group_unallocated w : groups w !! fresh (dom (groups w)) = None.
Proof. apply not_elem_of_dom, is_fresh. Qed.

(** [NewMetrics] reads the policy and never writes it. *)
Lemma NewMetrics_policy typ labels w :
  rejectAll (defaultStore (NewMetrics typ labels w).1)
    = rejectAll (defaultStore w) ∧
  exclusionLabels (defaultStore (NewMetrics typ labels w).1)
    = exclusionLabels (defaultStore w).
Proof.
  unfold NewMetrics. case_decide; [done|].
  destruct (isExclusion labels w); [done|]. cbv zeta.
  by destruct (store_metrics (defaultStore w) !! fullName typ labels).
Qed.

Lemma NewMetrics_isExclusion typ labels l w :
  isExclusion l (NewMetrics typ labels w).1 = isExclusion l w.
Proof.
  unfold isExclusion.
  by destruct (NewMetrics_policy typ labels w) as [-> ->].
Qed.

(** ** The invariant of the table *)

Lemma init_ok : world_ok init.
Proof. split; simpl; intros *; by rewrite lookup_empty. Qed.

Lemma frames_ok w w' : frames w w' → world_ok w → world_ok w'.
Proof.
  intros [Hs Hg] [Ht Hi]. split; rewrite Hs.
  - intros name m Hm. destruct (Ht name m Hm) as (p & -> & Hp). eauto.
  - exact Hi.
Qed.

Lemma frames_refl w : frames w w.
Proof. by split. Qed.

Lemma is_Some_insert_mono {V} (m : gmap loc V) p q v :
  is_Some (m !! p) → is_Some (<[q := v]> m !! p).
Proof.
  intros H. destruct (decide (q = p)) as [->|Hne].
  - rewrite lookup_insert_eq. eauto.
  - by rewrite lookup_insert_ne.
Qed.

Lemma GetOrRegister_frames s name x w w' i :
  GetOrRegister s name x w = Some (w', i) → frames w w'.
Proof.
  unfold GetOrRegister. intros H.
  destruct (groups w !! s) as [g|] eqn:Hg; simplify_eq/=.
  destruct (registry g !! name) as [j|]; simplify_eq/=.
  - apply frames_refl.
  - split; [done|]. simpl. intros p. apply is_Some_insert_mono.
Qed.

Lemma Counter_frames s key w w' i :
  Counter s key w = Some (w', i) → frames w w'.
Proof.
  unfold Counter. intros H.
  destruct (GetOrRegister s key NewCounter w) as [[w1 j]|] eqn:HG;
    simplify_eq/=.
  destruct (is_Counter (instruments w1 !! j)); simplify_eq/=.
  by eapply GetOrRegister_frames.
Qed.

Lemma Gauge_frames s key w w' i :
  Gauge s key w = Some (w', i) → frames w w'.
Proof.
  unfold Gauge. intros H.
  destruct (GetOrRegister s key NewGauge w) as [[w1 j]|] eqn:HG;
    simplify_eq/=.
  destruct (is_Gauge (instruments w1 !! j)); simplify_eq/=.
  by eapply GetOrRegister_frames.
Qed.

Lemma Histogram_frames s key w w' i :
  Histogram s key w = Some (w', i) → frames w w'.
Proof.
  unfold Histogram. intros H.
  destruct (GetOrRegister s key _ w) as [[w1 j]|] eqn:HG; simplify_eq/=.
  destruct (is_Histogram (instruments w1 !! j)); simplify_eq/=.
  by eapply GetOrRegister_frames.
Qed.

Lemma SortedLabels_frames s w w' r :
  SortedLabels s w = Some (w', r) → frames w w'.
Proof.
  unfold SortedLabels. intros H.
  destruct (groups w !! s) as [g|] eqn:Hg; simplify_eq/=.
  destruct (sortedLabels (labels g)) as [ks vs].
  destruct (labelKeys g), (labelVals g); simplify_eq/=;
    first [apply frames_refl
          | split; [done|]; simpl; intros p; apply is_Some_insert_mono].
Qed.

Lemma UnregisterAll_frames m w : frames w (UnregisterAll m w).
Proof.
  destruct m as [p|]; [|apply frames_refl]. split; [done|]. simpl.
  intros q [g Hg]. rewrite lookup_alter. case_decide; subst; rewrite Hg; eauto.
Qed.

Lemma instrument_update_frames (o : op) w w' :
  match o with
  | OpInc _ _ | OpGaugeUpdate _ _ | OpHistogramUpdate _ _ _ => True
  | _ => False
  end →
  step o w = Some w' → frames w w'.
Proof.
  destruct o; try done; intros _; simpl;
    unfold Counter_Inc, Gauge_Update, Histogram_Update;
    destruct (instruments w !! i) as [[]|]; intros; simplify_eq/=;
    by split.
Qed.

Lemma NewMetrics_ok typ labels w :
  world_ok w → world_ok (NewMetrics typ labels w).1.
Proof.
  intros Hok. destruct (decide (maxLabelCount < size labels)%nat) as [Hl|Hl].
  { by rewrite NewMetrics_limit. }
  destruct (isExclusion labels w) eqn:He.
  { rewrite NewMetrics_excluded by (done || lia). done. }
  destruct (store_metrics (defaultStore w) !! fullName typ labels)
    as [m|] eqn:Hm.
  { by rewrite (NewMetrics_found _ _ _ m) by (done || lia). }
  rewrite NewMetrics_created by (done || lia). cbv zeta.
  pose proof (fresh_group_unallocated w) as Hfresh.
  destruct Hok as [Ht Hi]. split; simpl.
  - intros name m. rewrite lookup_insert. case_decide.
    + intros [= <-]. eexists; split; [done|]. rewrite lookup_insert_eq. eauto.
    + intros Hn. destruct (Ht name m Hn) as (p & -> & Hp).
      eexists; split; [done|]. by apply is_Some_insert_mono.
  - intros n1 n2 m. rewrite !lookup_insert.
    repeat case_decide; subst; try done.
    + intros [= <-] Hn. destruct (Ht _ _ Hn) as (p & [= <-] & [g Hg]).
      congruence.
    + intros Hn [= <-]. destruct (Ht _ _ Hn) as (p & [= <-] & [g Hg]).
      congruence.
    + apply Hi.
Qed.

Lemma ResetAll_ok w : world_ok (ResetAll w).
Proof. split; simpl; intros *; by rewrite lookup_empty. Qed.

Lemma SetStatsMatcher_ok all exclusions w :
  world_ok w → world_ok (SetStatsMatcher all exclusions w).
Proof. intros [Ht Hi]. by split. Qed.

Lemma step_ok o w w' : step o w = Some w' → world_ok w → world_ok w'.
Proof.
  destruct o; simpl; intros H Hok.
  - simplify_eq. by apply SetStatsMatcher_ok.
  - simplify_eq. by apply NewMetrics_ok.
  - by simplify_eq.
  - simplify_eq. apply ResetAll_ok.
  - destruct (SortedLabels s w) as [[w1 r]|] eqn:E; simplify_eq/=.
    eapply frames_ok; [by eapply SortedLabels_frames|done].
  - destruct (Counter s key w) as [[w1 r]|] eqn:E; simplify_eq/=.
    eapply frames_ok; [by eapply Counter_frames|done].
  - destruct (Gauge s key w) as [[w1 r]|] eqn:E; simplify_eq/=.
    eapply frames_ok; [by eapply Gauge_frames|done].
  - destruct (Histogram s key w) as [[w1 r]|] eqn:E; simplify_eq/=.
    eapply frames_ok; [by eapply Histogram_frames|done].
  - simplify_eq. eapply frames_ok; [apply UnregisterAll_frames|done].
  - eapply frames_ok; [|done].
    by apply (instrument_update_frames (OpInc i delta)).
  - eapply frames_ok; [|done].
    by apply (instrument_update_frames (OpGaugeUpdate i v)).
  - eapply frames_ok; [|done].
    by apply (instrument_update_frames (OpHistogramUpdate i r v)).
Qed.

Lemma run_ok ops : ∀ w w', run ops w = Some w' → world_ok w → world_ok w'.
Proof.
  induction ops as [|o ops IH]; simpl; intros w w' H Hok.
  - by simplify_eq.
  - destruct (step o w) as [w1|] eqn:E; simplify_eq/=.
    eapply IH; [done|]. by eapply step_ok.
Qed.


(** Only [ResetAll] takes an entry out of the table. *)
Lemma NewMetrics_table_mono typ labels w name m :
  store_metrics (defaultStore w) !! name = Some m →
  store_metrics (defaultStore (NewMetrics typ labels w).1) !! name = Some m.
Proof.
  intros Hn. destruct (decide (maxLabelCount < size labels)%nat) as [Hl|Hl].
  { by rewrite NewMetrics_limit. }
  destruct (isExclusion labels w) eqn:He.
  { by rewrite NewMetrics_excluded by (done || lia). }
  destruct (store_metrics (defaultStore w) !! fullName typ labels)
    as [m'|] eqn:Hm.
  { by rewrite (NewMetrics_found _ _ _ m') by (done || lia). }
  rewrite NewMetrics_created by (done || lia). cbv zeta. simpl.
  rewrite lookup_insert_ne; [done|congruence].
Qed.

Lemma step_table_mono o w w' name m :
  is_reset o = false → step o w = Some w' →
  store_metrics (defaultStore w) !! name = Some m →
  store_metrics (defaultStore w') !! name = Some m.
Proof.
  intros Hr H Hn.
  assert (frames w w' → store_metrics (defaultStore w') !! name = Some m)
    as Hfr by (by intros [-> _]).
  destruct o; simpl in *; try done.
  - by simplify_eq.
  - simplify_eq. by apply NewMetrics_table_mono.
  - by simplify_eq.
  - destruct (SortedLabels s w) as [[w1 r]|] eqn:E; simplify_eq/=.
    by eapply Hfr, SortedLabels_frames.
  - destruct (Counter s key w) as [[w1 r]|] eqn:E; simplify_eq/=.
    by eapply Hfr, Counter_frames.
  - destruct (Gauge s key w) as [[w1 r]|] eqn:E; simplify_eq/=.
    by eapply Hfr, Gauge_frames.
  - destruct (Histogram s key w) as [[w1 r]|] eqn:E; simplify_eq/=.
    by eapply Hfr, Histogram_frames.
  - simplify_eq. apply Hfr, UnregisterAll_frames.
  - by apply Hfr, (instrument_update_frames (OpInc i delta)).
  - by apply Hfr, (instrument_update_frames (OpGaugeUpdate i v)).
  - by apply Hfr, (instrument_update_frames (OpHistogramUpdate i r v)).
Qed.

Lemma run_table_mono ops : ∀ w w' name m,
  no_reset ops = true → run ops w = Some w' →
  store_metrics (defaultStore w) !! name = Some m →
  store_metrics (defaultStore w') !! name = Some m.
Proof.
  induction ops as [|o ops IH]; simpl; intros w w' name m Hr H Hn.
  - by simplify_eq.
  - apply andb_prop in Hr as [Ho Hr]. apply negb_true_iff in Ho.
    destruct (step o w) as [w1|] eqn:E; simplify_eq/=.
    eapply IH; [done..|]. by eapply step_table_mono.
Qed.

Lemma GetAll_elem w m :
  m ∈ GetAll w ↔ ∃ name, store_metrics (defaultStore w) !! name = Some m.
Proof.
  unfold GetAll. rewrite list_elem_of_fmap. split.
  - intros ([name m'] & -> & Hin). exists name. by apply elem_of_map_to_list.
  - intros [name Hn]. exists (name, m). split; [done|].
    by apply elem_of_map_to_list.
Qed.

Lemma GetAll_NoDup w : world_ok w → NoDup (GetAll w).
Proof.
  intros [_ Hi]. unfold GetAll. apply NoDup_fmap_2_strong.
  - intros [n1 m1] [n2 m2] H1 H2. simpl. intros <-.
    apply elem_of_map_to_list in H1, H2. f_equal. by eapply Hi.
  - apply NoDup_map_to_list.
Qed.

Lemma demo_labels_same : demo_labels' = demo_labels.
Proof. vm_compute. reflexivity. Qed.

(** A call that passes the limit and the policy returns a pointer to a
    group, which the table then holds under the identity. *)
Lemma NewMetrics_tracked typ (labels : gmap string string) w :
  world_ok w → (size labels ≤ maxLabelCount)%nat →
  isExclusion labels w = false →
  ∃ p, (NewMetrics typ labels w).2 = Ok (PtrMetrics p) ∧
       store_metrics (defaultStore (NewMetrics typ labels w).1)
         !! fullName typ labels = Some (PtrMetrics p).
Proof.
  intros Hok Hsz He.
  destruct (store_metrics (defaultStore w) !! fullName typ labels)
    as [m|] eqn:Hm.
  - destruct (ok_tracked w Hok _ _ Hm) as (p & -> & _).
    exists p. by rewrite (NewMetrics_found _ _ _ (PtrMetrics p)).
  - exists (fresh (dom (groups w))). rewrite NewMetrics_created by done.
    cbv zeta. simpl. by rewrite lookup_insert_eq.
Qed.

(** ** C1 *)

(** C1 (deduplication idempotence of [NewMetrics]).  Take a label set of
    at most 10 entries that the policy does not exclude and create its
    group; let the clients go on with any calls but [ResetAll]; as long as
    the policy still does not exclude the labels, a call with a label set
    that is the same key-to-value mapping returns the very group of the
    first call and changes nothing (no fresh container), the table holds
    that group under the identity of (type, labels) and under no other
    name, and the enumeration lists it once. *)
Theorem NewMetrics_dedup typ (labels labels' : gmap string string) w ops w2 :
  world_ok w →
  (size labels ≤ maxLabelCount)%nat →
  isExclusion labels w = false →
  (∀ k, labels' !! k = labels !! k) →
  no_reset ops = true →
  run ops (NewMetrics typ labels w).1 = Some w2 →
  isExclusion labels' w2 = false →
  ∃ p, (NewMetrics typ labels w).2 = Ok (PtrMetrics p) ∧
       NewMetrics typ labels' w2 = (w2, Ok (PtrMetrics p)) ∧
       (∀ name, store_metrics (defaultStore w2) !! name = Some (PtrMetrics p)
                ↔ name = fullName typ labels) ∧
       PtrMetrics p ∈ GetAll w2 ∧ NoDup (GetAll w2).
Proof.
  intros Hok Hsz He Heq Hnr Hrun He2.
  apply map_eq in Heq. subst labels'.
  destruct (NewMetrics_tracked typ labels w Hok Hsz He) as (p & Hres & Htab).
  exists p. split; [done|].
  pose proof (run_table_mono _ _ _ _ _ Hnr Hrun Htab) as Htab2.
  assert (world_ok w2) as Hok2.
  { eapply run_ok; [done|]. by apply NewMetrics_ok. }
  split; [by apply NewMetrics_found|]. split; [|split].
  - intros name. split; [|by intros ->].
    intros Hn. by eapply (ok_inj w2 Hok2).
  - apply GetAll_elem. eauto.
  - by apply GetAll_NoDup.
Qed.

Lemma NewMetrics_dedup_witness :
  ∃ p, (NewMetrics "http" demo_labels init).2 = Ok (PtrMetrics p) ∧
       NewMetrics "http" demo_labels' demo_world
         = (demo_world, Ok (PtrMetrics p)) ∧
       (∀ name,
          store_metrics (defaultStore demo_world) !! name = Some (PtrMetrics p)
          ↔ name = fullName "http" demo_labels) ∧
       PtrMetrics p ∈ GetAll demo_world ∧ NoDup (GetAll demo_world).
Proof.
  apply (NewMetrics_dedup "http" demo_labels demo_labels' init demo_ops
           demo_world).
  - apply init_ok.
  - vm_compute. lia.
  - reflexivity.
  - intros k. by rewrite demo_labels_same.
  - reflexivity.
  - vm_compute. reflexivity.
  - reflexivity.
Defined.

(** ** C2 *)

Lemma fullName_any_range r typ (labels : gmap string string) :
  r ≡ₚ (map_to_list labels).*1 → fullName_range r typ labels = fullName typ labels.
Proof. intros Hp. unfold fullName. by apply fullName_range_perm. Qed.

(** C2 (identity determinism).  Two label maps filled with the same
    key-value pairs in different insertion orders [l1] and [l2], and
    iterated by [sortedLabels] in different orders [r1] and [r2], get the
    same identity string; and when the labels are at most 10 and not
    excluded, [NewMetrics] on the one and then on the other returns the
    same group, the second call changing nothing. *)
Theorem identity_determinism typ (l1 l2 : list (string * string))
    (r1 r2 : list string) w :
  NoDup l1.*1 → l1 ≡ₚ l2 →
  r1 ≡ₚ l1.*1 → r2 ≡ₚ l2.*1 →
  world_ok w →
  (size (list_to_map l1 : gmap string string) ≤ maxLabelCount)%nat →
  isExclusion (list_to_map l1) w = false →
  let L1 : gmap string string := list_to_map l1 in
  let L2 : gmap string string := list_to_map l2 in
  fullName_range r1 typ L1 = fullName_range r2 typ L2 ∧
  fullName typ L1 = fullName typ L2 ∧
  ∃ p, NewMetrics typ L1 w = ((NewMetrics typ L1 w).1, Ok (PtrMetrics p)) ∧
       NewMetrics typ L2 (NewMetrics typ L1 w).1
         = ((NewMetrics typ L1 w).1, Ok (PtrMetrics p)).
Proof.
  intros Hnd Hp Hr1 Hr2 Hok Hsz He L1 L2.
  assert (L2 = L1) as HL.
  { subst L1 L2. symmetry. by apply list_to_map_proper. }
  assert ((map_to_list L1).*1 ≡ₚ l1.*1) as Hk.
  { subst L1. by rewrite map_to_list_to_map. }
  rewrite HL. split; [|split; [done|]].
  - rewrite !fullName_any_range; [done| |].
    + rewrite Hk, Hr2. by rewrite Hp.
    + by rewrite Hk.
  - destruct (NewMetrics_tracked typ L1 w Hok Hsz He) as (p & Hres & Htab).
    exists p. split.
    + rewrite <- Hres. by destruct (NewMetrics typ L1 w).
    + apply NewMetrics_found; [done| |done].
      by rewrite NewMetrics_isExclusion.
Qed.

Lemma identity_determinism_witness :
  let L1 : gmap string string :=
    list_to_map [("env", "prod"); ("zone", "a"); ("app", "x")] in
  let L2 : gmap string string :=
    list_to_map [("app", "x"); ("env", "prod"); ("zone", "a")] in
  fullName_range ["zone"; "app"; "env"] "http" L1
    = fullName_range ["env"; "zone"; "app"] "http" L2 ∧
  fullName "http" L1 = fullName "http" L2 ∧
  ∃ p, NewMetrics "http" L1 init
         = ((NewMetrics "http" L1 init).1, Ok (PtrMetrics p)) ∧
       NewMetrics "http" L2 (NewMetrics "http" L1 init).1
         = ((NewMetrics "http" L1 init).1, Ok (PtrMetrics p)).
Proof.
  apply (identity_determinism "http"
           [("env", "prod"); ("zone", "a"); ("app", "x")]
           [("app", "x"); ("env", "prod"); ("zone", "a")]
           ["zone"; "app"; "env"] ["env"; "zone"; "app"] init).
  - apply (bool_decide_unpack _). vm_compute. exact I.
  - apply (bool_decide_unpack _). vm_compute. exact I.
  - apply (bool_decide_unpack _). vm_compute. exact I.
  - apply (bool_decide_unpack _). vm_compute. exact I.
  - apply init_ok.
  - vm_compute. lia.
  - reflexivity.
Defined.

(** ** C3 *)

(** The format as C3 words it, for every label set, does not hold: with no
    labels the identity is the type followed by a dot, not the type
    alone. *)
Lemma fullName_format_as_stated_fails :
  ¬ (∀ typ (labels : gmap string string) (ps : list (string * string)),
       ps ≡ₚ map_to_list labels → Sorted by_key ps →
       fullName typ labels = typ +:+ identity_suffix ps).
Proof.
  intros H. specialize (H "t" ∅ []).
  rewrite map_to_list_empty in H.
  specialize (H (reflexivity _) (Sorted_nil _)).
  vm_compute in H. discriminate H.
Qed.

(** C3 (identity string format), amended.  For every type string and
    every non-empty label set, the identity is the type followed by
    [.<key>.<value>] for each label in sorted key order, whatever
    key-sorted enumeration [ps] of the labels is taken; for the empty
    label set it is the type followed by a single dot. *)
Theorem fullName_format typ (labels : gmap string string)
    (ps : list (string * string)) :
  ps ≡ₚ map_to_list labels → Sorted by_key ps →
  (labels ≠ ∅ → fullName typ labels = typ +:+ identity_suffix ps) ∧
  (labels = ∅ → fullName typ labels = typ +:+ ".").
Proof.
  intros Hp Hs. rewrite (fullName_pairs typ labels ps Hp Hs). split.
  - intros Hne. rewrite Join_pairs_suffix; [done|].
    intros ->. apply Hne, map_to_list_empty_iff.
    by apply Permutation_nil_l in Hp.
  - intros ->. rewrite map_to_list_empty in Hp.
    apply Permutation_nil_r in Hp as ->. simpl. by rewrite app_nil_r_s.
Qed.

Lemma fullName_format_witness :
  let labels : gmap string string :=
    <["zone" := "a"]> (<["env" := "prod"]> ∅) in
  (labels ≠ ∅ → fullName "http" labels = "http.env.prod.zone.a") ∧
  (labels = ∅ → fullName "http" labels = "http.").
Proof.
  apply (fullName_format "http" (<["zone" := "a"]> (<["env" := "prod"]> ∅))
           [("env", "prod"); ("zone", "a")]).
  - apply (bool_decide_unpack _). vm_compute. exact I.
  - repeat constructor.
Defined.

(** ** C10 *)

(** C10 (identity collisions).  [fullName] is not injective: the type
    ["t"] with the label [a = b.c] and with the label [a.b = c] are
    different label sets with one identity, so that [NewMetrics] on the
    first and then on the second returns one shared group, which carries
    the labels of the first. *)
Theorem fullName_collision :
  let L1 : gmap string string := {["a" := "b.c"]} in
  let L2 : gmap string string := {["a.b" := "c"]} in
  L1 ≠ L2 ∧
  fullName "t" L1 = "t.a.b.c" ∧ fullName "t" L2 = "t.a.b.c" ∧
  ¬ (∀ t1 t2 (M1 M2 : gmap string string),
       fullName t1 M1 = fullName t2 M2 → t1 = t2 ∧ M1 = M2) ∧
  ∃ p w1,
    NewMetrics "t" L1 init = (w1, Ok (PtrMetrics p)) ∧
    NewMetrics "t" L2 w1 = (w1, Ok (PtrMetrics p)) ∧
    GetAll w1 = [PtrMetrics p] ∧
    labels <$> groups w1 !! p = Some L1.
Proof.
  intros L1 L2.
  assert (L1 ≠ L2) as Hne.
  { intros Heq. assert (L1 !! "a" = L2 !! "a") as H by (by rewrite Heq).
    vm_compute in H. discriminate H. }
  split; [done|]. split; [by vm_compute|]. split; [by vm_compute|]. split.
  - intros H. destruct (H "t" "t" L1 L2) as [_ Heq]; [by vm_compute|done].
  - exists 1%positive, (NewMetrics "t" L1 init).1.
    repeat split; by vm_compute.
Qed.

(** ** C4 *)

Lemma isExclusion_true labels w :
  isExclusion labels w = true ↔
  rejectAll (defaultStore w) = true ∨
  ∃ k, k ∈ exclusionLabels (defaultStore w) ∧ is_Some (labels !! k).
Proof.
  unfold isExclusion. destruct (rejectAll (defaultStore w)).
  { split; [by left|done]. }
  rewrite existsb_exists. split.
  - intros (k & Hin & Hk). right. exists k. split.
    + by apply list_elem_of_In.
    + by apply bool_decide_eq_true in Hk.
  - intros [?|(k & Hin & Hk)]; [done|]. exists k. split.
    + by apply list_elem_of_In.
    + by apply bool_decide_eq_true.
Qed.

Lemma GetAll_no_NilMetrics w t l : world_ok w → NilMetrics t l ∉ GetAll w.
Proof.
  intros Hok [name Hn]%GetAll_elem.
  by destruct (ok_tracked w Hok _ _ Hn) as (p & ? & _).
Qed.

(** C4 (exclusion path).  With at most 10 labels, when [rejectAll] is set
    or some key of the labels is in the excluded-key list, [NewMetrics]
    returns the no-op group and leaves the whole world, so the table, as
    it was; and whatever the clients call from then on, the enumeration
    never lists that group. *)
Theorem NewMetrics_exclusion typ (labels : gmap string string) w ops w' :
  world_ok w →
  (size labels ≤ maxLabelCount)%nat →
  (rejectAll (defaultStore w) = true ∨
   ∃ k, k ∈ exclusionLabels (defaultStore w) ∧ is_Some (labels !! k)) →
  run ops (NewMetrics typ labels w).1 = Some w' →
  NewMetrics typ labels w = (w, Ok (NilMetrics typ labels)) ∧
  store_metrics (defaultStore (NewMetrics typ labels w).1)
    = store_metrics (defaultStore w) ∧
  (NilMetrics typ labels ∉ GetAll (NewMetrics typ labels w).1) ∧
  (NilMetrics typ labels ∉ GetAll w').
Proof.
  intros Hok Hsz Hex Hrun. apply isExclusion_true in Hex.
  rewrite NewMetrics_excluded in * by done. simpl in *.
  repeat split; [by apply GetAll_no_NilMetrics|].
  apply GetAll_no_NilMetrics. by eapply run_ok.
Qed.

Lemma NewMetrics_exclusion_witness :
  let w := SetStatsMatcher false ["env"] init in
  let labels : gmap string string := {["env" := "prod"]} in
  let w' := default init
    (run [OpNewMetrics "http" ∅; OpCounter 1%positive "hits"; OpGetAll] w) in
  NewMetrics "http" labels w = (w, Ok (NilMetrics "http" labels)) ∧
  store_metrics (defaultStore (NewMetrics "http" labels w).1)
    = store_metrics (defaultStore w) ∧
  (NilMetrics "http" labels ∉ GetAll (NewMetrics "http" labels w).1) ∧
  (NilMetrics "http" labels ∉ GetAll w').
Proof.
  intros w labels w'.
  apply (NewMetrics_exclusion "http" labels w
           [OpNewMetrics "http" ∅; OpCounter 1%positive "hits"; OpGetAll] w').
  - apply SetStatsMatcher_ok, init_ok.
  - vm_compute. lia.
  - right. exists "env". split; [apply list_elem_of_here|].
    exists "prod". vm_compute. reflexivity.
  - vm_compute. reflexivity.
Defined.

(** ** C5 *)

(** C5 (label limit, error atomicity).  [NewMetrics] returns the
    label-count error exactly when the label set has more than 10
    entries; an error leaves the world (table, policy, allocated groups)
    as it was and is never anything but that error; 10 labels or fewer
    always give a group. *)
Theorem NewMetrics_label_limit typ (labels : gmap string string) w :
  ((NewMetrics typ labels w).2 = Err errLabelCountExceeded
   ↔ (maxLabelCount < size labels)%nat) ∧
  (∀ e, (NewMetrics typ labels w).2 = Err e →
        e = errLabelCountExceeded ∧ (NewMetrics typ labels w).1 = w) ∧
  ((size labels ≤ maxLabelCount)%nat →
   ∃ m, (NewMetrics typ labels w).2 = Ok m).
Proof.
  destruct (decide (maxLabelCount < size labels)%nat) as [Hl|Hl].
  { rewrite NewMetrics_limit by done. simpl. split; [done|].
    split; [by intros e [= <-]|lia]. }
  assert (∃ m, (NewMetrics typ labels w).2 = Ok m) as [m Hm].
  { unfold NewMetrics. rewrite decide_False by done.
    destruct (isExclusion labels w); [by eexists|]. cbv zeta.
    destruct (store_metrics (defaultStore w) !! fullName typ labels);
      by eexists. }
  rewrite Hm. split; [split; [done|lia]|]. split; [done|eauto].
Qed.

(** ** C6 *)

Lemma step_rejectAll o w w' :
  is_reset o = false → step o w = Some w' →
  rejectAll (defaultStore w) = true → rejectAll (defaultStore w') = true.
Proof.
  intros Hr H Hrej.
  assert (frames w w' → rejectAll (defaultStore w') = true)
    as Hfr by (by intros [-> _]).
  destruct o; simpl in *; try done.
  - simplify_eq. simpl. rewrite Hrej. by destruct all.
  - simplify_eq. by destruct (NewMetrics_policy typ0 labels0 w) as [-> _].
  - by simplify_eq.
  - destruct (SortedLabels s w) as [[w1 r]|] eqn:E; simplify_eq/=.
    by eapply Hfr, SortedLabels_frames.
  - destruct (Counter s key w) as [[w1 r]|] eqn:E; simplify_eq/=.
    by eapply Hfr, Counter_frames.
  - destruct (Gauge s key w) as [[w1 r]|] eqn:E; simplify_eq/=.
    by eapply Hfr, Gauge_frames.
  - destruct (Histogram s key w) as [[w1 r]|] eqn:E; simplify_eq/=.
    by eapply Hfr, Histogram_frames.
  - simplify_eq. apply Hfr, UnregisterAll_frames.
  - by apply Hfr, (instrument_update_frames (OpInc i delta)).
  - by apply Hfr, (instrument_update_frames (OpGaugeUpdate i v)).
  - by apply Hfr, (instrument_update_frames (OpHistogramUpdate i r v)).
Qed.

Lemma run_rejectAll ops : ∀ w w',
  no_reset ops = true → run ops w = Some w' →
  rejectAll (defaultStore w) = true → rejectAll (defaultStore w') = true.
Proof.
  induction ops as [|o ops IH]; simpl; intros w w' Hr H Hrej.
  - by simplify_eq.
  - apply andb_prop in Hr as [Ho Hr]. apply negb_true_iff in Ho.
    destruct (step o w) as [w1|] eqn:E; simplify_eq/=.
    eapply IH; [done..|]. by eapply step_rejectAll.
Qed.

(** C6 (sticky reject-all latch).  After [SetStatsMatcher(true, _)], and
    through any later calls other than [ResetAll] (later
    [SetStatsMatcher(false, _)] among them), [rejectAll] stays set, one
    more [SetStatsMatcher(false, _)] leaves it set, every creation with
    at most 10 labels returns the no-op group, and no call of
    [NewMetrics] at all returns a tracked group or changes the world; a
    call that clears a set flag is [ResetAll], and [ResetAll] does clear
    it. *)
Theorem rejectAll_sticky w exclusions ops w' :
  no_reset ops = true →
  run ops (SetStatsMatcher true exclusions w) = Some w' →
  rejectAll (defaultStore w') = true ∧
  (∀ excl', rejectAll (defaultStore (SetStatsMatcher false excl' w')) = true) ∧
  (∀ typ (labels : gmap string string), (size labels ≤ maxLabelCount)%nat →
     NewMetrics typ labels w' = (w', Ok (NilMetrics typ labels))) ∧
  (∀ typ (labels : gmap string string),
     (NewMetrics typ labels w').1 = w' ∧
     ∀ p, (NewMetrics typ labels w').2 ≠ Ok (PtrMetrics p)) ∧
  (∀ o w1 w2, rejectAll (defaultStore w1) = true → step o w1 = Some w2 →
     rejectAll (defaultStore w2) = false → o = OpResetAll) ∧
  rejectAll (defaultStore (ResetAll w')) = false.
Proof.
  intros Hnr Hrun.
  assert (rejectAll (defaultStore w') = true) as Hrej.
  { by eapply run_rejectAll. }
  assert (∀ labels, isExclusion labels w' = true) as Hex.
  { intros labels. apply isExclusion_true. by left. }
  split; [done|]. split; [|split; [|split; [|split; [|done]]]].
  - intros excl'. simpl. by rewrite Hrej.
  - intros typ labels Hsz. by apply NewMetrics_excluded.
  - intros typ labels.
    destruct (decide (maxLabelCount < size labels)%nat) as [Hl|Hl].
    + by rewrite NewMetrics_limit.
    + by rewrite NewMetrics_excluded by (done || lia).
  - intros o w1 w2 H1 Hstep H2. destruct (is_reset o) eqn:Ho.
    + by destruct o.
    + rewrite (step_rejectAll o w1 w2 Ho Hstep H1) in H2. done.
Qed.

Lemma rejectAll_sticky_witness :
  let ops := [OpSetStatsMatcher false []; OpNewMetrics "http" ∅;
              OpSetStatsMatcher false ["env"]; OpGetAll] in
  let w' := SetStatsMatcher false ["env"] (SetStatsMatcher true [] init) in
  rejectAll (defaultStore w') = true ∧
  (∀ excl', rejectAll (defaultStore (SetStatsMatcher false excl' w')) = true) ∧
  (∀ typ (labels : gmap string string), (size labels ≤ maxLabelCount)%nat →
     NewMetrics typ labels w' = (w', Ok (NilMetrics typ labels))) ∧
  (∀ typ (labels : gmap string string),
     (NewMetrics typ labels w').1 = w' ∧
     ∀ p, (NewMetrics typ labels w').2 ≠ Ok (PtrMetrics p)) ∧
  (∀ o w1 w2, rejectAll (defaultStore w1) = true → step o w1 = Some w2 →
     rejectAll (defaultStore w2) = false → o = OpResetAll) ∧
  rejectAll (defaultStore (ResetAll w')) = false.
Proof.
  intros ops w'. apply (rejectAll_sticky init [] ops w').
  - reflexivity.
  - vm_compute. reflexivity.
Defined.

(** ** C7 *)

Lemma UnregisterAll_groups m w p :
  groups (UnregisterAll m w) !! p
  = if decide (m = PtrMetrics p) then clear_registry <$> groups w !! p
    else groups w !! p.
Proof.
  destruct m as [q|t l]; cbn [UnregisterAll groups].
  - rewrite lookup_alter. repeat case_decide; simplify_eq; done.
  - by case_decide.
Qed.

Lemma clear_registry_idemp (o : option metrics) :
  clear_registry <$> (clear_registry <$> o) = clear_registry <$> o.
Proof. by destruct o. Qed.

(** The teardown loop of [ResetAll]: the groups on the list lose their
    instruments, the others and everything else stay. *)
Lemma teardown_loop ms : ∀ w,
  let w' := foldl (λ acc m, UnregisterAll m acc) w ms in
  defaultStore w' = defaultStore w ∧ instruments w' = instruments w ∧
  ∀ p, groups w' !! p
       = if decide (PtrMetrics p ∈ ms) then clear_registry <$> groups w !! p
         else groups w !! p.
Proof.
  induction ms as [|m ms IH]; intros w; cbn [foldl]; cbv zeta.
  { split; [done|]. split; [done|]. intros p.
    rewrite decide_False; [done|]. apply not_elem_of_nil. }
  destruct (IH (UnregisterAll m w)) as (Hs & Hi & Hg).
  split; [by rewrite Hs; destruct m|]. split; [by rewrite Hi; destruct m|].
  intros p. rewrite Hg, UnregisterAll_groups.
  destruct (decide (m = PtrMetrics p)) as [->|Hm].
  - rewrite (decide_True (P := PtrMetrics p ∈ PtrMetrics p :: ms))
      by apply list_elem_of_here.
    case_decide; [apply clear_registry_idemp|done].
  - destruct (decide (PtrMetrics p ∈ ms)) as [Hin|Hin].
    + rewrite decide_True; [done|]. by apply list_elem_of_further.
    + rewrite decide_False; [done|].
      intros [?|?]%elem_of_cons; congruence.
Qed.

(** C7 ([ResetAll] postcondition).  Whatever the state before, after
    [ResetAll] the table is empty, [GetAll] is the empty sequence,
    [rejectAll] is false and the excluded-key list is empty; every group
    that was tracked has had [UnregisterAll] applied (its registry is
    empty, the rest of it is as before), and the groups that were not
    tracked and all instruments are untouched. *)
Theorem ResetAll_post w :
  store_metrics (defaultStore (ResetAll w)) = ∅ ∧
  GetAll (ResetAll w) = [] ∧
  rejectAll (defaultStore (ResetAll w)) = false ∧
  exclusionLabels (defaultStore (ResetAll w)) = [] ∧
  (∀ p, PtrMetrics p ∈ GetAll w →
        groups (ResetAll w) !! p = clear_registry <$> groups w !! p) ∧
  (∀ p g, PtrMetrics p ∈ GetAll w → groups w !! p = Some g →
          registry <$> groups (ResetAll w) !! p = Some ∅) ∧
  (∀ p, PtrMetrics p ∉ GetAll w →
        groups (ResetAll w) !! p = groups w !! p) ∧
  instruments (ResetAll w) = instruments w.
Proof.
  destruct (teardown_loop (GetAll w) w) as (_ & Hi & Hg).
  split; [done|]. split; [by unfold GetAll; simpl; rewrite map_to_list_empty|].
  split; [done|]. split; [done|].
  split; [|split; [|split; [|done]]].
  - intros p Hin. unfold ResetAll. simpl. by rewrite Hg, decide_True.
  - intros p g Hin Hp. unfold ResetAll. simpl.
    by rewrite Hg, decide_True, Hp.
  - intros p Hin. unfold ResetAll. simpl. by rewrite Hg, decide_False.
Qed.

(** ** C8 *)

Lemma GetOrRegister_registered s key x w g i :
  groups w !! s = Some g → registry g !! key = Some i →
  GetOrRegister s key x w = Some (w, i).
Proof. intros Hg Hr. unfold GetOrRegister. rewrite Hg. simpl. by rewrite Hr. Qed.

Lemma GetOrRegister_new s key x w g :
  groups w !! s = Some g → registry g !! key = None →
  ∃ w1 g1, GetOrRegister s key x w = Some (w1, fresh (dom (instruments w))) ∧
           instruments w1 !! fresh (dom (instruments w)) = Some x ∧
           groups w1 !! s = Some g1 ∧
           registry g1 !! key = Some (fresh (dom (instruments w))).
Proof.
  intros Hg Hr. unfold GetOrRegister. rewrite Hg. simpl. rewrite Hr.
  eexists _, _. split; [done|]. simpl. rewrite !lookup_insert_eq.
  split; [done|]. split; [done|]. simpl. by rewrite lookup_insert_eq.
Qed.

Lemma get_as_registered is_T x s key w g i :
  groups w !! s = Some g → registry g !! key = Some i →
  is_T (instruments w !! i) = true →
  get_as is_T x s key w = Some (w, i).
Proof.
  intros Hg Hr HT. unfold get_as.
  rewrite (GetOrRegister_registered s key x w g i Hg Hr). simpl.
  by rewrite HT.
Qed.

(** An accessor on a name that is free, or is held by an instrument of
    the accessor's own kind: the call returns an instrument, and from then
    on the name gives that instrument back, the world untouched, for as
    long as the group keeps its registry and the instrument its kind. *)
Lemma get_as_idempotent is_T x s key w g :
  is_T (Some x) = true →
  groups w !! s = Some g → name_fits is_T w g key →
  ∃ w1 i, get_as is_T x s key w = Some (w1, i) ∧
          get_as is_T x s key w1 = Some (w1, i) ∧
          (∀ j, registry g !! key = Some j → w1 = w ∧ i = j) ∧
          ∀ w2, groups w2 = groups w1 →
                is_T (instruments w2 !! i) = true →
                get_as is_T x s key w2 = Some (w2, i).
Proof.
  intros Hx Hg Hfit. destruct (registry g !! key) as [j|] eqn:Hr.
  - specialize (Hfit j Hr). exists w, j.
    rewrite (get_as_registered is_T x s key w g j) by done.
    split; [done|]. split; [done|]. split; [by intros ? [= <-]|].
    intros w2 Hg2 HT. apply (get_as_registered is_T x s key w2 g j);
      [by rewrite Hg2|done..].
  - destruct (GetOrRegister_new s key x w g Hg Hr)
      as (w1 & g1 & HG & Hi & Hg1 & Hr1).
    exists w1, (fresh (dom (instruments w))).
    assert (get_as is_T x s key w1
            = Some (w1, fresh (dom (instruments w)))) as H1.
    { apply (get_as_registered is_T x s key w1 g1); [done..|].
      by rewrite Hi. }
    split; [|split; [done|split; [done|]]].
    + unfold get_as. rewrite HG. simpl. by rewrite Hi, Hx.
    + intros w2 Hg2 HT. apply (get_as_registered is_T x s key w2 g1);
        [by rewrite Hg2|done..].
Qed.

Lemma get_as_other_kind is_T x s key w g i :
  groups w !! s = Some g → registry g !! key = Some i →
  is_T (instruments w !! i) = false →
  get_as is_T x s key w = None.
Proof.
  intros Hg Hr HT. unfold get_as.
  rewrite (GetOrRegister_registered s key x w g i Hg Hr). simpl.
  by rewrite HT.
Qed.

(** The claim as C8 words it, for every group and every name, does not
    hold: on a name that the group holds as a gauge, [Counter] panics. *)
Lemma instrument_idempotent_as_stated_fails :
  ¬ (∀ w s key g, groups w !! s = Some g →
       ∃ w1 i, Counter s key w = Some (w1, i) ∧
               Counter s key w1 = Some (w1, i)).
Proof.
  intros H.
  destruct (H gauge_world 1%positive "x"
              (mkMetrics "t" ∅ None None {["x" := 1%positive]}))
    as (w1 & i & Hc & _).
  - vm_compute. reflexivity.
  - vm_compute in Hc. discriminate Hc.
Qed.

(** C8 (instrument creation idempotence), amended.  On a group [s] and a
    name that is free in it or already held by a counter, [Counter]
    returns an instrument and a second call returns that same instrument
    and changes nothing; when the name was already held, the first call
    changes nothing either and returns the holder; and after increments
    of the instrument the name still gives the same instrument, with the
    accumulated count in place.  Likewise for [Gauge] and [Histogram] with
    a name that is free or held by a gauge, respectively a histogram.  On
    a name held by an instrument of another kind the accessor panics. *)
Theorem instrument_idempotent w s key g :
  groups w !! s = Some g →
  (name_fits is_Counter w g key →
   ∃ w1 i, Counter s key w = Some (w1, i) ∧
           Counter s key w1 = Some (w1, i) ∧
           (∀ j, registry g !! key = Some j → w1 = w ∧ i = j) ∧
           ∀ delta, ∃ w2, Counter_Inc i delta w1 = Some w2 ∧
                          Counter s key w2 = Some (w2, i)) ∧
  (name_fits is_Gauge w g key →
   ∃ w1 i, Gauge s key w = Some (w1, i) ∧
           Gauge s key w1 = Some (w1, i) ∧
           (∀ j, registry g !! key = Some j → w1 = w ∧ i = j) ∧
           ∀ v, ∃ w2, Gauge_Update i v w1 = Some w2 ∧
                      Gauge s key w2 = Some (w2, i)) ∧
  (name_fits is_Histogram w g key →
   ∃ w1 i, Histogram s key w = Some (w1, i) ∧
           Histogram s key w1 = Some (w1, i) ∧
           (∀ j, registry g !! key = Some j → w1 = w ∧ i = j) ∧
           ∀ r v, ∃ w2, Histogram_Update i r v w1 = Some w2 ∧
                        Histogram s key w2 = Some (w2, i)) ∧
  (∀ i, registry g !! key = Some i →
     (is_Counter (instruments w !! i) = false → Counter s key w = None) ∧
     (is_Gauge (instruments w !! i) = false → Gauge s key w = None) ∧
     (is_Histogram (instruments w !! i) = false →
      Histogram s key w = None)).
Proof.
  intros Hg. split; [|split; [|split]]; [intros Hfit..|].
  4: { intros i Hr. split; [|split]; intros HT.
       - by apply (get_as_other_kind is_Counter NewCounter s key w g i).
       - by apply (get_as_other_kind is_Gauge NewGauge s key w g i).
       - by apply (get_as_other_kind is_Histogram
                     (NewHistogram (NewUniformSample 100)) s key w g i). }
  - destruct (get_as_idempotent is_Counter NewCounter s key w g)
      as (w1 & i & H1 & H2 & H3 & H4); [done..|].
    exists w1, i. split; [done|]. split; [done|]. split; [done|].
    intros delta. pose proof H2 as Hty. unfold get_as in Hty.
    destruct (GetOrRegister s key NewCounter w1) as [[w' j]|]; [|done].
    simpl in Hty. destruct (is_Counter (instruments w' !! j)) eqn:Hj; [|done].
    simplify_eq. unfold Counter_Inc.
    destruct (instruments w1 !! i) as [[c| |]|]; try done.
    eexists. split; [done|]. apply H4; [done|].
    simpl. by rewrite lookup_insert_eq.
  - destruct (get_as_idempotent is_Gauge NewGauge s key w g)
      as (w1 & i & H1 & H2 & H3 & H4); [done..|].
    exists w1, i. split; [done|]. split; [done|]. split; [done|].
    intros v. pose proof H2 as Hty. unfold get_as in Hty.
    destruct (GetOrRegister s key NewGauge w1) as [[w' j]|]; [|done].
    simpl in Hty. destruct (is_Gauge (instruments w' !! j)) eqn:Hj; [|done].
    simplify_eq. unfold Gauge_Update.
    destruct (instruments w1 !! i) as [[| c |]|]; try done.
    eexists. split; [done|]. apply H4; [done|].
    simpl. by rewrite lookup_insert_eq.
  - destruct (get_as_idempotent is_Histogram
                (NewHistogram (NewUniformSample 100)) s key w g)
      as (w1 & i & H1 & H2 & H3 & H4); [done..|].
    exists w1, i. split; [done|]. split; [done|]. split; [done|].
    intros r v. pose proof H2 as Hty. unfold get_as in Hty.
    destruct (GetOrRegister s key _ w1) as [[w' j]|]; [|done].
    simpl in Hty.
    destruct (is_Histogram (instruments w' !! j)) eqn:Hj; [|done].
    simplify_eq. unfold Histogram_Update.
    destruct (instruments w1 !! i) as [[| | c]|]; try done.
    eexists. split; [done|]. apply H4; [done|].
    simpl. by rewrite lookup_insert_eq.
Qed.

Lemma instrument_idempotent_witness :
  let w := gauge_world in
  let s := 1%positive in
  let g := mkMetrics "t" ∅ None None {["x" := 1%positive]} in
  (name_fits is_Counter w g "hits" →
   ∃ w1 i, Counter s "hits" w = Some (w1, i) ∧
           Counter s "hits" w1 = Some (w1, i) ∧
           (∀ j, registry g !! "hits" = Some j → w1 = w ∧ i = j) ∧
           ∀ delta, ∃ w2, Counter_Inc i delta w1 = Some w2 ∧
                          Counter s "hits" w2 = Some (w2, i)) ∧
  (name_fits is_Gauge w g "hits" →
   ∃ w1 i, Gauge s "hits" w = Some (w1, i) ∧
           Gauge s "hits" w1 = Some (w1, i) ∧
           (∀ j, registry g !! "hits" = Some j → w1 = w ∧ i = j) ∧
           ∀ v, ∃ w2, Gauge_Update i v w1 = Some w2 ∧
                      Gauge s "hits" w2 = Some (w2, i)) ∧
  (name_fits is_Histogram w g "hits" →
   ∃ w1 i, Histogram s "hits" w = Some (w1, i) ∧
           Histogram s "hits" w1 = Some (w1, i) ∧
           (∀ j, registry g !! "hits" = Some j → w1 = w ∧ i = j) ∧
           ∀ r v, ∃ w2, Histogram_Update i r v w1 = Some w2 ∧
                        Histogram s "hits" w2 = Some (w2, i)) ∧
  (∀ i, registry g !! "hits" = Some i →
     (is_Counter (instruments w !! i) = false → Counter s "hits" w = None) ∧
     (is_Gauge (instruments w !! i) = false → Gauge s "hits" w = None) ∧
     (is_Histogram (instruments w !! i) = false →
      Histogram s "hits" w = None)).
Proof.
  intros w s g. apply (instrument_idempotent w s "hits" g).
  vm_compute. reflexivity.
Defined.

(** ** C9 *)

Lemma UniformSample_Update_size r v s :
  reservoirSize (UniformSample_Update r v s) = reservoirSize s.
Proof. unfold UniformSample_Update. by case_decide. Qed.

Lemma UniformSample_Update_length r v s :
  (length (values s) ≤ reservoirSize s)%nat →
  length (values (UniformSample_Update r v s))
  = Nat.min (S (length (values s))) (reservoirSize s).
Proof.
  intros Hle. unfold UniformSample_Update. case_decide; cbn [values].
  - rewrite length_app. cbn [length]. lia.
  - rewrite length_insert. lia.
Qed.

Lemma observe_bound obs : ∀ s,
  (length (values s) ≤ reservoirSize s)%nat →
  reservoirSize (observe obs s) = reservoirSize s ∧
  length (values (observe obs s))
  = Nat.min (length (values s) + length obs) (reservoirSize s).
Proof.
  induction obs as [|[r v] obs IH]; intros s Hle;
    cbn [observe foldl length fst snd].
  { split; [done|lia]. }
  fold (observe obs (UniformSample_Update r v s)).
  destruct (IH (UniformSample_Update r v s)) as [Hsz Hlen].
  { rewrite UniformSample_Update_length, UniformSample_Update_size by done.
    lia. }
  rewrite Hsz, Hlen.
  rewrite UniformSample_Update_length, UniformSample_Update_size by done.
  split; [done|lia].
Qed.

Lemma run_observations obs i : ∀ w s,
  instruments w !! i = Some (StandardHistogram s) →
  ∃ w2, run ((λ rv, OpHistogramUpdate i rv.1 rv.2) <$> obs) w = Some w2 ∧
        instruments w2 !! i = Some (StandardHistogram (observe obs s)).
Proof.
  induction obs as [|[r v] obs IH]; intros w s Hi; simpl.
  { by exists w. }
  unfold Histogram_Update. rewrite Hi. simpl.
  apply IH. simpl. by rewrite lookup_insert_eq.
Qed.

(** C9 (histogram reservoir bound).  A histogram that [Histogram] creates
    (the name was free) starts with an empty uniform sample of capacity
    100; after any sequence of observations, whatever the random draws,
    it is still a histogram over a sample of capacity 100 that retains
    min(n, 100) of the n observations, so never more than 100. *)
Theorem Histogram_reservoir_bound w s key g (obs : list (nat * Z)) :
  groups w !! s = Some g → registry g !! key = None →
  ∃ w1 i,
    Histogram s key w = Some (w1, i) ∧
    instruments w1 !! i = Some (StandardHistogram (NewUniformSample 100)) ∧
    ∃ w2 smp,
      run ((λ rv, OpHistogramUpdate i rv.1 rv.2) <$> obs) w1 = Some w2 ∧
      instruments w2 !! i = Some (StandardHistogram smp) ∧
      reservoirSize smp = 100 ∧
      length (values smp) = Nat.min (length obs) 100 ∧
      (length (values smp) ≤ 100)%nat.
Proof.
  intros Hg Hr.
  destruct (GetOrRegister_new s key (NewHistogram (NewUniformSample 100))
              w g Hg Hr) as (w1 & g1 & HG & Hi & _).
  exists w1, (fresh (dom (instruments w))). split.
  { unfold Histogram. rewrite HG. simpl. by rewrite Hi. }
  split; [done|].
  destruct (run_observations obs _ w1 _ Hi) as (w2 & Hrun & Hi2).
  exists w2, (observe obs (NewUniformSample 100)). split; [done|].
  split; [done|].
  destruct (observe_bound obs (NewUniformSample 100)) as [Hsz Hlen].
  { simpl. lia. }
  simpl in Hsz, Hlen. rewrite Hsz, Hlen. split; [done|]. split; lia.
Qed.

Lemma Histogram_reservoir_bound_witness :
  let w := (NewMetrics "t" ∅ init).1 in
  let obs := (λ n, (n * 7 mod 13, Z.of_nat n)) <$> seq 0 1000 in
  ∃ w1 i,
    Histogram 1%positive "latency" w = Some (w1, i) ∧
    instruments w1 !! i = Some (StandardHistogram (NewUniformSample 100)) ∧
    ∃ w2 smp,
      run ((λ rv, OpHistogramUpdate i rv.1 rv.2) <$> obs) w1 = Some w2 ∧
      instruments w2 !! i = Some (StandardHistogram smp) ∧
      reservoirSize smp = 100 ∧
      length (values smp) = Nat.min (length obs) 100 ∧
      (length (values smp) ≤ 100)%nat.
Proof.
  intros w obs.
  apply (Histogram_reservoir_bound w 1%positive "latency"
           (mkMetrics "t" ∅ None None ∅) obs).
  - vm_compute. reflexivity.
  - reflexivity.
Defined.

(** * Further properties of [store.go] *)

(** ** [mapEqual] *)

Lemma mapEqual_loop_true range (y : gmap string string) :
  mapEqual_loop range y = true ↔ ∀ k v, (k, v) ∈ range → y !! k = Some v.
Proof.
  induction range as [|[k xv] rest IH]; cbn [mapEqual_loop].
  { split; [|done]. intros _ k v Hin. by apply elem_of_nil in Hin. }
  destruct (y !! k) as [yv|] eqn:Hy.
  - destruct (decide (yv ≠ xv)) as [Hne|Heq].
    + split; [done|]. intros H. specialize (H k xv (list_elem_of_here _ _)).
      congruence.
    + apply dec_stable in Heq. subst yv. rewrite IH. split.
      * intros H k' v' [[= -> ->]|Hin]%elem_of_cons; [done|by apply H].
      * intros H k' v' Hin. apply H. by apply list_elem_of_further.
  - split; [done|]. intros H. specialize (H k xv (list_elem_of_here _ _)).
    congruence.
Qed.

Lemma mapEqual_range_true (r : list (string * string))
    (x y : gmap string string) :
  r ≡ₚ map_to_list x → (mapEqual_range r x y = true ↔ x = y).
Proof.
  intros Hr. unfold mapEqual_range.
  destruct (decide (size x ≠ size y)) as [Hne|Heq].
  { split; [done|]. intros ->. done. }
  apply dec_stable in Heq. rewrite mapEqual_loop_true. split.
  - intros H. apply map_subseteq_size_eq; [|lia].
    apply map_subseteq_spec. intros k v Hk. apply H.
    rewrite Hr. by apply elem_of_map_to_list.
  - intros <- k v Hin. rewrite Hr in Hin.
    by apply elem_of_map_to_list in Hin.
Qed.

(** X1.  [mapEqual] decides equality of label sets as mappings, whatever
    the order in which Go iterates over the first map. *)
Theorem mapEqual_range_spec (range : list (string * string))
    (x y : gmap string string) :
  range ≡ₚ map_to_list x →
  (mapEqual_range range x y = true ↔ x = y) ∧
  mapEqual_range range x y = mapEqual x y.
Proof.
  intros Hp. split; [by apply mapEqual_range_true|].
  destruct (mapEqual_range range x y) eqn:E1, (mapEqual x y) eqn:E2;
    try done.
  - apply (mapEqual_range_true range x y Hp) in E1.
    apply (mapEqual_range_true (map_to_list x) x y) in E1; [|done].
    unfold mapEqual in E2. congruence.
  - apply (mapEqual_range_true (map_to_list x) x y) in E2; [|done].
    apply (mapEqual_range_true range x y Hp) in E2. congruence.
Qed.

Lemma mapEqual_range_spec_witness :
  let x : gmap string string := list_to_map [("a", "1"); ("b", "2")] in
  let y : gmap string string := list_to_map [("b", "2"); ("a", "1")] in
  (mapEqual_range [("b", "2"); ("a", "1")] x y = true ↔ x = y) ∧
  mapEqual_range [("b", "2"); ("a", "1")] x y = mapEqual x y.
Proof.
  intros x y. apply (mapEqual_range_spec [("b", "2"); ("a", "1")] x y).
  apply (bool_decide_unpack _). vm_compute. exact I.
Defined.

(** X2.  What [mapEqual] rejects: maps of different sizes, a key of [x]
    missing from [y], and a key with another value; it is symmetric, and
    equal label sets get equal identities. *)
Theorem mapEqual_cases (x y : gmap string string) :
  (size x ≠ size y → mapEqual x y = false) ∧
  (∀ k, is_Some (x !! k) → y !! k = None → mapEqual x y = false) ∧
  (∀ k xv yv, x !! k = Some xv → y !! k = Some yv → xv ≠ yv →
              mapEqual x y = false) ∧
  mapEqual x y = mapEqual y x ∧
  (∀ typ, mapEqual x y = true → fullName typ x = fullName typ y).
Proof.
  assert (∀ a b : gmap string string, mapEqual a b = true ↔ a = b) as Hspec.
  { intros a b. by apply mapEqual_range_true. }
  assert (∀ a b : gmap string string, a ≠ b → mapEqual a b = false) as Hne.
  { intros a b Hab. destruct (mapEqual a b) eqn:E; [|done].
    by apply Hspec in E. }
  split; [|split; [|split; [|split]]].
  - intros Hsz. apply Hne. by intros ->.
  - intros k [v Hk] Hy. apply Hne. intros ->. congruence.
  - intros k xv yv Hx Hy Hv. apply Hne. intros ->. congruence.
  - destruct (mapEqual x y) eqn:E1, (mapEqual y x) eqn:E2; try done.
    + apply Hspec in E1. symmetry in E1. apply Hspec in E1. congruence.
    + apply Hspec in E2. symmetry in E2. apply Hspec in E2. congruence.
  - intros typ E. apply Hspec in E. by subst.
Qed.

(** ** [sortedLabels] *)

#[local] Instance by_key_dec : RelDecision by_key.
Proof. intros a b. unfold by_key. apply _. Defined.

#[local] Instance by_key_total : Total by_key.
Proof. intros a b. unfold by_key. apply (total String.le). Qed.

(** The labels have a key-sorted enumeration. *)
Lemma labels_sorted_pairs (labels : gmap string string) :
  ∃ ps, ps ≡ₚ map_to_list labels ∧ Sorted by_key ps.
Proof.
  exists (merge_sort by_key (map_to_list labels)). split.
  - apply merge_sort_Permutation.
  - apply Sorted_merge_sort, _.
Qed.

(** X3.  [sortedLabels] returns every key of the labels once, in
    increasing order, and beside each key its value: the two slices have
    the length of the map and [values[i] = labels[keys[i]]]. *)
Theorem sortedLabels_keys_values (labels : gmap string string) :
  let '(keys, values) := sortedLabels labels in
  Sorted String.le keys ∧ NoDup keys ∧
  (∀ k, k ∈ keys ↔ is_Some (labels !! k)) ∧
  length keys = size labels ∧ length values = size labels ∧
  ∀ i k, keys !! i = Some k → values !! i = labels !! k.
Proof.
  destruct (labels_sorted_pairs labels) as (ps & Hp & Hs).
  rewrite (sortedLabels_pairs labels ps Hp Hs).
  assert (ps.*1 ≡ₚ (map_to_list labels).*1) as Hk by (by rewrite Hp).
  split; [by apply (Sorted_fmap _ by_key)|].
  split; [rewrite Hk; apply NoDup_fst_map_to_list|].
  split; [|split; [|split]].
  - intros k. rewrite Hk, list_elem_of_fmap. split.
    + intros ([k' v] & -> & Hin). apply elem_of_map_to_list in Hin. eauto.
    + intros [v Hv]. exists (k, v). split; [done|].
      by apply elem_of_map_to_list.
  - by rewrite length_fmap, Hp, length_map_to_list.
  - by rewrite length_fmap, Hp, length_map_to_list.
  - intros i k. rewrite !list_lookup_fmap.
    destruct (ps !! i) as [[k' v]|] eqn:Hi; [|done]. intros [= <-]. simpl.
    symmetry. apply elem_of_map_to_list. rewrite <- Hp.
    by eapply list_elem_of_lookup_2.
Qed.

(** X4.  The two slices of [sortedLabels] together are the label set
    again: filling a map with [keys[i] -> values[i]] gives the labels
    back. *)
Theorem sortedLabels_round_trip (labels : gmap string string) :
  list_to_map (zip (sortedLabels labels).1 (sortedLabels labels).2) = labels.
Proof.
  destruct (labels_sorted_pairs labels) as (ps & Hp & Hs).
  rewrite (sortedLabels_pairs labels ps Hp Hs). simpl.
  rewrite zip_fst_snd.
  transitivity (list_to_map (map_to_list labels) : gmap string string);
    [|apply list_to_map_to_list].
  apply list_to_map_proper; [|done].
  rewrite Hp. apply NoDup_fst_map_to_list.
Qed.

(** ** [fullName] on labels without dots *)

Lemma app_cons_s c (a b : string) : String c a +:+ b = String c (a +:+ b).
Proof. reflexivity. Qed.

Lemma app_nil_l_s (b : string) : "" +:+ b = b.
Proof. reflexivity. Qed.

Lemma concat_cons2 (x y : string) l :
  String.concat "." (x :: y :: l) = x +:+ "." +:+ String.concat "." (y :: l).
Proof. reflexivity. Qed.

(** A field without a dot ends at the first dot. *)
Lemma dot_split (a b r1 r2 : string) :
  no_dot a = true → no_dot b = true →
  a +:+ "." +:+ r1 = b +:+ "." +:+ r2 → a = b ∧ r1 = r2.
Proof.
  revert b. induction a as [|c a IH]; intros [|d b] Ha Hb;
    rewrite ?app_cons_s, ?app_nil_l_s; intros H.
  - by simplify_eq.
  - by simplify_eq.
  - by simplify_eq.
  - injection H as -> H. cbn [no_dot] in Ha, Hb.
    destruct (decide (d = "."%char)); [done|].
    destruct (IH b Ha Hb H) as [-> ->]. done.
Qed.

Lemma dot_end (a b r : string) :
  no_dot a = true → no_dot b = true → a ≠ b +:+ "." +:+ r.
Proof.
  revert b. induction a as [|c a IH]; intros [|d b] Ha Hb;
    rewrite ?app_cons_s, ?app_nil_l_s; intros H.
  - done.
  - done.
  - by simplify_eq.
  - injection H as -> H. cbn [no_dot] in Ha, Hb.
    destruct (decide (d = "."%char)); [done|]. by eapply IH.
Qed.

Lemma concat_dot_inj (l1 : list string) : ∀ l2,
  l1 ≠ [] → l2 ≠ [] →
  Forall (λ s, no_dot s = true) l1 → Forall (λ s, no_dot s = true) l2 →
  String.concat "." l1 = String.concat "." l2 → l1 = l2.
Proof.
  induction l1 as [|x [|x' l1] IH]; intros [|y [|y' l2]] H1 H2 F1 F2 H;
    try done.
  - change (x = y) in H. by subst.
  - rewrite concat_cons2 in H. change (String.concat "." [x]) with x in H.
    apply Forall_cons in F1 as [Fx _]. apply Forall_cons in F2 as [Fy _].
    by destruct (dot_end x y _ Fx Fy H).
  - rewrite concat_cons2 in H. change (String.concat "." [y]) with y in H.
    apply Forall_cons in F1 as [Fx _]. apply Forall_cons in F2 as [Fy _].
    symmetry in H. by destruct (dot_end y x _ Fy Fx H).
  - rewrite !concat_cons2 in H.
    apply Forall_cons in F1 as [Fx F1]. apply Forall_cons in F2 as [Fy F2].
    destruct (dot_split _ _ _ _ Fx Fy H) as [-> H'].
    f_equal. by apply IH.
Qed.

Lemma Join_pairs_fields_cons (ps : list (string * string)) : ∀ p,
  String.concat "." ((λ kv, kv.1 +:+ "." +:+ kv.2) <$> p :: ps)
  = String.concat "." (p.1 :: p.2 :: flat_map (λ kv, [kv.1; kv.2]) ps).
Proof.
  induction ps as [|q ps IH]; intros [k v]; [done|].
  cbn [fmap list_fmap flat_map app fst snd].
  cbn [fmap list_fmap fst snd] in IH.
  rewrite !concat_cons2. rewrite (IH q). rewrite concat_cons2.
  by rewrite !app_assoc_s.
Qed.

Lemma Join_pairs_fields (ps : list (string * string)) :
  strings_Join ((λ kv, kv.1 +:+ "." +:+ kv.2) <$> ps) "."
  = String.concat "." (identity_fields ps).
Proof.
  unfold strings_Join. destruct ps as [|[k v] ps]; [done|].
  apply (Join_pairs_fields_cons ps (k, v)).
Qed.

Lemma identity_fields_inj (ps1 : list (string * string)) : ∀ ps2,
  identity_fields ps1 = identity_fields ps2 → ps1 = ps2.
Proof.
  assert (∀ a b : list (string * string),
    flat_map (λ kv, [kv.1; kv.2]) a = flat_map (λ kv, [kv.1; kv.2]) b →
    a = b) as Hflat.
  { induction a as [|[k v] a IH]; intros [|[k' v'] b] H; try done.
    simpl in H. injection H as -> -> H. f_equal. by apply IH. }
  intros ps2 H. destruct ps1 as [|[k v] ps1], ps2 as [|[k' v'] ps2];
    try done.
  by apply Hflat.
Qed.

(** X5.  Away from dots [fullName] is injective: when neither the types
    nor any label key or value contains a dot, equal identities come from
    equal types and equal label sets. *)
Theorem fullName_injective_no_dot t1 t2 (L1 L2 : gmap string string) :
  no_dot t1 = true → no_dot t2 = true →
  labels_no_dot L1 → labels_no_dot L2 →
  fullName t1 L1 = fullName t2 L2 → t1 = t2 ∧ L1 = L2.
Proof.
  intros Ht1 Ht2 HL1 HL2 H.
  destruct (labels_sorted_pairs L1) as (ps1 & Hp1 & Hs1).
  destruct (labels_sorted_pairs L2) as (ps2 & Hp2 & Hs2).
  rewrite (fullName_pairs t1 L1 ps1 Hp1 Hs1) in H.
  rewrite (fullName_pairs t2 L2 ps2 Hp2 Hs2) in H.
  rewrite !Join_pairs_fields in H.
  assert (∀ (L : gmap string string) ps, labels_no_dot L →
            ps ≡ₚ map_to_list L →
            Forall (λ s, no_dot s = true) (identity_fields ps)) as Hfields.
  { intros L ps HL Hp.
    assert (Forall (λ s, no_dot s = true)
              (flat_map (λ kv : string * string, [kv.1; kv.2]) ps)) as Hall.
    { apply Forall_forall. intros x Hx.
      apply list_elem_of_In, in_flat_map in Hx as ([k v] & Hin & Hx).
      apply list_elem_of_In in Hin. rewrite Hp in Hin.
      apply elem_of_map_to_list, HL in Hin as [Hk Hv].
      simpl in Hx. destruct Hx as [<-|[<-|[]]]; done. }
    destruct ps; [by repeat constructor|done]. }
  destruct (dot_split t1 t2 _ _ Ht1 Ht2 H) as [-> Hrest].
  split; [done|].
  apply concat_dot_inj in Hrest; [|by destruct ps1|by destruct ps2|eauto..].
  apply identity_fields_inj in Hrest. subst ps2.
  rewrite <- (list_to_map_to_list L1), <- (list_to_map_to_list L2).
  apply list_to_map_proper.
  - apply NoDup_fst_map_to_list.
  - by rewrite <- Hp1, <- Hp2.
Qed.

Lemma fullName_injective_no_dot_witness :
  "http" = "http" ∧
  ({["env" := "prod"]} : gmap string string) = <["env" := "prod"]> ∅.
Proof.
  apply (fullName_injective_no_dot "http" "http"
           {["env" := "prod"]} (<["env" := "prod"]> ∅)).
  - reflexivity.
  - reflexivity.
  - intros k v [<- <-]%lookup_singleton_Some. by vm_compute.
  - intros k v [<- <-]%lookup_singleton_Some. by vm_compute.
  - vm_compute. reflexivity.
Defined.

(** ** What a call of [NewMetrics] changes *)

(** X6.  [NewMetrics] touches no instrument and no group that exists;
    either it leaves the whole world as it was, or it returns a pointer
    that was not allocated before, to a group with the type and labels of
    the call, an empty cache and no instruments, and the enumeration
    gains exactly that group. *)
Theorem NewMetrics_effect typ (labels : gmap string string) w :
  instruments (NewMetrics typ labels w).1 = instruments w ∧
  (∀ p g, groups w !! p = Some g →
          groups (NewMetrics typ labels w).1 !! p = Some g) ∧
  ((NewMetrics typ labels w).1 = w ∨
   ∃ p, (NewMetrics typ labels w).2 = Ok (PtrMetrics p) ∧
        groups w !! p = None ∧
        groups (NewMetrics typ labels w).1 !! p
          = Some (mkMetrics typ labels None None ∅) ∧
        store_metrics (defaultStore w) !! fullName typ labels = None ∧
        GetAll (NewMetrics typ labels w).1 ≡ₚ PtrMetrics p :: GetAll w).
Proof.
  destruct (decide (maxLabelCount < size labels)%nat) as [Hl|Hl].
  { rewrite NewMetrics_limit by done. simpl. eauto. }
  destruct (isExclusion labels w) eqn:He.
  { rewrite NewMetrics_excluded by (done || lia). simpl. eauto. }
  destruct (store_metrics (defaultStore w) !! fullName typ labels)
    as [m|] eqn:Hm.
  { rewrite (NewMetrics_found _ _ _ m) by (done || lia). simpl. eauto. }
  rewrite NewMetrics_created by (done || lia). cbv zeta. simpl.
  pose proof (fresh_group_unallocated w) as Hfresh.
  split; [done|]. split.
  - intros p g Hp. rewrite lookup_insert_ne; [done|]. congruence.
  - right. eexists. split; [done|]. split; [done|].
    rewrite lookup_insert_eq. split; [done|]. split; [done|].
    unfold GetAll. simpl. by rewrite map_to_list_insert.
Qed.

(** ** The exclusion policy *)

(** X7.  The policy is consulted before the table: once a key of the
    labels is on the exclusion list (or everything is rejected),
    [NewMetrics] answers with the no-op group even for an identity whose
    group exists, while that group stays in the table and in the
    enumeration, with all groups and instruments as they were. *)
Theorem exclusion_shadows_tracked typ (labels : gmap string string) w
    all exclusions k m :
  (size labels ≤ maxLabelCount)%nat →
  store_metrics (defaultStore w) !! fullName typ labels = Some m →
  k ∈ exclusions → is_Some (labels !! k) →
  let w' := SetStatsMatcher all exclusions w in
  NewMetrics typ labels w' = (w', Ok (NilMetrics typ labels)) ∧
  store_metrics (defaultStore w') !! fullName typ labels = Some m ∧
  m ∈ GetAll w' ∧ GetAll w' = GetAll w ∧
  groups w' = groups w ∧ instruments w' = instruments w.
Proof.
  intros Hsz Hm Hk Hl w'. split.
  - apply NewMetrics_excluded; [done|]. apply isExclusion_true.
    right. exists k. by split.
  - split; [done|]. split; [|done]. apply GetAll_elem. by exists (fullName typ labels).
Qed.

Lemma exclusion_shadows_tracked_witness :
  let w := (NewMetrics "http" {["env" := "prod"]} init).1 in
  let w' := SetStatsMatcher false ["zone"; "env"] w in
  NewMetrics "http" {["env" := "prod"]} w'
    = (w', Ok (NilMetrics "http" {["env" := "prod"]})) ∧
  store_metrics (defaultStore w') !! fullName "http" {["env" := "prod"]}
    = Some (PtrMetrics 1%positive) ∧
  PtrMetrics 1%positive ∈ GetAll w' ∧ GetAll w' = GetAll w ∧
  groups w' = groups w ∧ instruments w' = instruments w.
Proof.
  intros w.
  apply (exclusion_shadows_tracked "http" {["env" := "prod"]} w false
           ["zone"; "env"] "env" (PtrMetrics 1%positive)).
  - vm_compute. lia.
  - vm_compute. reflexivity.
  - apply list_elem_of_further, list_elem_of_here.
  - exists "prod". vm_compute. reflexivity.
Defined.

(** X8.  [SetStatsMatcher] replaces the exclusion list, it does not add
    to it: after the call a label set is excluded exactly when the call
    or an earlier one asked to reject all, or one of its keys is on the
    list of this call.  Only the keys of the labels count, not their
    values, so the empty label set is excluded by reject-all alone. *)
Theorem SetStatsMatcher_policy all exclusions w
    (labels labels' : gmap string string) :
  (isExclusion labels (SetStatsMatcher all exclusions w) = true ↔
   all = true ∨ rejectAll (defaultStore w) = true ∨
   ∃ k, k ∈ exclusions ∧ is_Some (labels !! k)) ∧
  (dom labels = dom labels' → isExclusion labels w = isExclusion labels' w) ∧
  isExclusion ∅ w = rejectAll (defaultStore w).
Proof.
  split; [|split].
  - rewrite isExclusion_true. simpl. destruct all.
    + split; intros _; by left.
    + split.
      * intros [?|?]; [right; by left|right; by right].
      * intros [?|[?|?]]; [done|by left|by right].
  - intros Hdom. unfold isExclusion.
    destruct (rejectAll (defaultStore w)); [done|].
    induction (exclusionLabels (defaultStore w)) as [|k l IH]; [done|].
    simpl. rewrite IH. f_equal. apply bool_decide_ext.
    by rewrite <- !elem_of_dom, Hdom.
  - unfold isExclusion. destruct (rejectAll (defaultStore w)); [done|].
    induction (exclusionLabels (defaultStore w)) as [|k l IH]; [done|].
    simpl. rewrite IH. by rewrite lookup_empty.
Qed.

(** ** After [ResetAll] *)

Lemma ResetAll_groups_None w p :
  groups (ResetAll w) !! p = None ↔ groups w !! p = None.
Proof.
  destruct (teardown_loop (GetAll w) w) as (_ & _ & Hg).
  unfold ResetAll. simpl. rewrite Hg.
  case_decide; [|done]. by destruct (groups w !! p).
Qed.

(** X9.  After [ResetAll] every label set of at most 10 entries gets a
    group again, whatever the policy was before, and it is a new one: a
    pointer that was not allocated before the reset, so none of the
    groups enumerated before, with no instruments; it is then the only
    group enumerated. *)
Theorem ResetAll_then_NewMetrics typ (labels : gmap string string) w :
  world_ok w →
  (size labels ≤ maxLabelCount)%nat →
  ∃ p w1,
    NewMetrics typ labels (ResetAll w) = (w1, Ok (PtrMetrics p)) ∧
    groups w !! p = None ∧
    (PtrMetrics p ∉ GetAll w) ∧
    groups w1 !! p = Some (mkMetrics typ labels None None ∅) ∧
    GetAll w1 = [PtrMetrics p].
Proof.
  intros Hok Hsz.
  assert (isExclusion labels (ResetAll w) = false) as He by done.
  pose proof (NewMetrics_created typ labels (ResetAll w) Hsz He
                (lookup_empty _)) as Hc.
  cbv zeta in Hc. eexists _, _. split; [exact Hc|].
  pose proof (fresh_group_unallocated (ResetAll w)) as Hfresh.
  apply (proj1 (ResetAll_groups_None w _)) in Hfresh.
  split; [done|]. split; [|split].
  - intros [name Hn]%GetAll_elem.
    destruct (ok_tracked w Hok _ _ Hn) as (q & [= Hq] & [g Hg]).
    change (fresh (dom (groups (ResetAll w))) = q) in Hq.
    rewrite <- Hq in Hg. congruence.
  - simpl. by rewrite lookup_insert_eq.
  - unfold GetAll. simpl. rewrite insert_empty. by rewrite map_to_list_singleton.
Qed.

Lemma ResetAll_then_NewMetrics_witness :
  ∃ p w1,
    NewMetrics "http" demo_labels (ResetAll demo_world)
      = (w1, Ok (PtrMetrics p)) ∧
    groups demo_world !! p = None ∧
    (PtrMetrics p ∉ GetAll demo_world) ∧
    groups w1 !! p = Some (mkMetrics "http" demo_labels None None ∅) ∧
    GetAll w1 = [PtrMetrics p].
Proof.
  apply (ResetAll_then_NewMetrics "http" demo_labels demo_world).
  - apply (run_ok demo_ops (NewMetrics "http" demo_labels init).1).
    + vm_compute. reflexivity.
    + apply NewMetrics_ok, init_ok.
  - vm_compute. lia.
Defined.

(** ** The groups through a call *)


















(** ** The cache of [SortedLabels] *)

(** X12.  On a group whose cache is consistent (every reachable group, by
    X10) the method [SortedLabels] returns what [sortedLabels] computes
    from the labels of the group, the first time and from the cache ever
    after; the first call writes the cache of that group and nothing
    else, a later call writes nothing. *)
Theorem SortedLabels_cached s w g :
  groups w !! s = Some g → cache_ok g →
  ∃ w1 g1,
    SortedLabels s w = Some (w1, sortedLabels (labels g)) ∧
    SortedLabels s w1 = Some (w1, sortedLabels (labels g)) ∧
    defaultStore w1 = defaultStore w ∧ instruments w1 = instruments w ∧
    (∀ p, p ≠ s → groups w1 !! p = groups w !! p) ∧
    groups w1 !! s = Some g1 ∧
    typ g1 = typ g ∧ labels g1 = labels g ∧ registry g1 = registry g ∧
    (labelKeys g1, labelVals g1)
      = (Some (sortedLabels (labels g)).1, Some (sortedLabels (labels g)).2).
Proof.
  intros Hg [[Hk Hv]|[Hk Hv]].
  - set (g1 := mkMetrics (typ g) (labels g)
                 (Some (sortedLabels (labels g)).1)
                 (Some (sortedLabels (labels g)).2) (registry g)).
    exists (mkWorld (defaultStore w) (<[s := g1]> (groups w)) (instruments w)),
           g1.
    split.
    { unfold SortedLabels. rewrite Hg. simpl. rewrite Hk. reflexivity. }
    split.
    { unfold SortedLabels. simpl. rewrite lookup_insert_eq. reflexivity. }
    split; [done|]. split; [done|]. split.
    { intros p Hp. simpl. by rewrite lookup_insert_ne. }
    simpl. rewrite lookup_insert_eq. done.
  - exists w, g. split.
    { unfold SortedLabels. rewrite Hg. simpl. rewrite Hk, Hv.
      by destruct (sortedLabels (labels g)). }
    split.
    { unfold SortedLabels. rewrite Hg. simpl. rewrite Hk, Hv.
      by destruct (sortedLabels (labels g)). }
    repeat split; try done. by rewrite Hk, Hv.
Qed.

Lemma SortedLabels_cached_witness :
  let w := (NewMetrics "http" demo_labels init).1 in
  ∃ w1 g1,
    SortedLabels 1%positive w = Some (w1, (["env"; "zone"], ["prod"; "a"])) ∧
    SortedLabels 1%positive w1 = Some (w1, (["env"; "zone"], ["prod"; "a"])) ∧
    defaultStore w1 = defaultStore w ∧ instruments w1 = instruments w ∧
    (∀ p, p ≠ 1%positive → groups w1 !! p = groups w !! p) ∧
    groups w1 !! 1%positive = Some g1 ∧
    typ g1 = "http" ∧ labels g1 = demo_labels ∧ registry g1 = ∅ ∧
    (labelKeys g1, labelVals g1)
      = (Some ["env"; "zone"], Some ["prod"; "a"]).
Proof.
  intros w.
  apply (SortedLabels_cached 1%positive w
           (mkMetrics "http" demo_labels None None ∅)).
  - vm_compute. reflexivity.
  - by left.
Defined.

(** ** The instruments through a call *)

Lemma same_kind_refl x : same_kind x x = true.
Proof. by destruct x. Qed.

Lemma GetOrRegister_registered_backward s name x w w' i0 p n i :
  GetOrRegister s name x w = Some (w', i0) →
  registered w' p n = Some i →
  registered w p n = Some i ∨
  (instruments w !! i = None ∧ is_Some (instruments w' !! i) ∧
   p = s ∧ n = name).
Proof.
  unfold GetOrRegister. intros H.
  destruct (groups w !! s) as [g|] eqn:Hg; simplify_eq/=.
  destruct (registry g !! name) as [j|] eqn:Hr; simplify_eq/=.
  { by left. }
  unfold registered. simpl. rewrite lookup_insert. case_decide.
  - subst p. simpl. rewrite lookup_insert. case_decide.
    + intros [= <-]. right. split; [apply not_elem_of_dom, is_fresh|].
      rewrite lookup_insert_eq. split; [eauto|done].
    + intros Hn. left. by rewrite Hg.
  - by left.
Qed.

Lemma GetOrRegister_instruments s name x w w' i0 j y :
  GetOrRegister s name x w = Some (w', i0) →
  instruments w !! j = Some y → instruments w' !! j = Some y.
Proof.
  unfold GetOrRegister. intros H Hj.
  destruct (groups w !! s) as [g|] eqn:Hg; simplify_eq/=.
  destruct (registry g !! name) as [k|] eqn:Hr; simplify_eq/=; [done|].
  rewrite lookup_insert_ne; [done|]. intros <-.
  pose proof (is_fresh (dom (instruments w))) as Hf.
  apply not_elem_of_dom in Hf. congruence.
Qed.

Lemma accessor_cases o s key w w' :
  accessor_of o = Some (s, key) → step o w = Some w' →
  ∃ x i0, GetOrRegister s key x w = Some (w', i0).
Proof.
  destruct o; try done; intros [= <- <-]; simpl.
  - unfold Counter.
    destruct (GetOrRegister s0 key0 NewCounter w) as [[w1 j]|] eqn:E;
      [|done].
    simpl. destruct (is_Counter (instruments w1 !! j)); [|done].
    intros [= <-]. eauto.
  - unfold Gauge.
    destruct (GetOrRegister s0 key0 NewGauge w) as [[w1 j]|] eqn:E; [|done].
    simpl. destruct (is_Gauge (instruments w1 !! j)); [|done].
    intros [= <-]. eauto.
  - unfold Histogram.
    destruct (GetOrRegister s0 key0 _ w) as [[w1 j]|] eqn:E; [|done].
    simpl. destruct (is_Histogram (instruments w1 !! j)); [|done].
    intros [= <-]. eauto.
Qed.

(** What a call can add to the registries: nothing, except an accessor
    that registers a freshly allocated instrument under its name. *)
Lemma step_registered o w w' p n i :
  step o w = Some w' → registered w' p n = Some i →
  registered w p n = Some i ∨
  (instruments w !! i = None ∧ is_Some (instruments w' !! i) ∧
   accessor_of o = Some (p, n)).
Proof.
  intros H Hr.
  destruct (accessor_of o) as [[s key]|] eqn:Ha.
  { destruct (accessor_cases o s key w w' Ha H) as (x & i0 & HG).
    destruct (GetOrRegister_registered_backward _ _ _ _ _ _ _ _ _ HG Hr)
      as [?|(? & ? & -> & ->)]; [by left|by right]. }
  left. destruct o; try done; simpl in H.
  - simplify_eq. exact Hr.
  - simplify_eq. revert Hr. unfold NewMetrics. case_decide; [done|].
    destruct (isExclusion labels0 w); [done|]. cbv zeta.
    destruct (store_metrics (defaultStore w) !! fullName typ0 labels0);
      [done|].
    unfold registered. simpl. rewrite lookup_insert. case_decide; [|done].
    simpl. by rewrite lookup_empty.
  - by simplify_eq.
  - simplify_eq. revert Hr. unfold registered.
    destruct (teardown_loop (GetAll w) w) as (_ & _ & Hg).
    unfold ResetAll. simpl. rewrite Hg. case_decide; [|done].
    destruct (groups w !! p) as [g|]; [|done]. simpl.
    by rewrite lookup_empty.
  - revert H Hr. unfold SortedLabels, registered.
    destruct (groups w !! s) as [g|] eqn:Hg; [|done]. simpl.
    destruct (labelKeys g), (labelVals g); simpl; intros [= <-]; simpl;
      try done; rewrite lookup_insert; case_decide; subst;
      by rewrite ?Hg.
  - simplify_eq. revert Hr. unfold registered.
    rewrite UnregisterAll_groups. case_decide; [|done].
    destruct (groups w !! p) as [g|]; [|done]. simpl.
    by rewrite lookup_empty.
  - revert H. unfold Counter_Inc.
    destruct (instruments w !! i0) as [[]|]; try done. intros [= <-].
    exact Hr.
  - revert H. unfold Gauge_Update.
    destruct (instruments w !! i0) as [[]|]; try done. intros [= <-].
    exact Hr.
  - revert H. unfold Histogram_Update.
    destruct (instruments w !! i0) as [[]|]; try done. intros [= <-].
    exact Hr.
Qed.

(** No call frees an instrument or changes its kind. *)
Lemma step_instruments o w w' j x :
  step o w = Some w' → instruments w !! j = Some x →
  ∃ y, instruments w' !! j = Some y ∧ same_kind x y = true.
Proof.
  intros H Hj.
  destruct (accessor_of o) as [[s key]|] eqn:Ha.
  { destruct (accessor_cases o s key w w' Ha H) as (x0 & i0 & HG).
    exists x. split; [|apply same_kind_refl].
    by eapply GetOrRegister_instruments. }
  assert (instruments w' = instruments w →
          ∃ y, instruments w' !! j = Some y ∧ same_kind x y = true) as Hsame.
  { intros ->. exists x. split; [done|apply same_kind_refl]. }
  destruct o; try done; simpl in H.
  - simplify_eq. by apply Hsame.
  - simplify_eq. apply Hsame. unfold NewMetrics. case_decide; [done|].
    destruct (isExclusion labels0 w); [done|]. cbv zeta.
    by destruct (store_metrics (defaultStore w) !! fullName typ0 labels0).
  - simplify_eq. by apply Hsame.
  - simplify_eq. apply Hsame.
    by destruct (teardown_loop (GetAll w) w) as (_ & Hi & _).
  - revert H. unfold SortedLabels.
    destruct (groups w !! s) as [g|] eqn:Hg; [|done]. simpl.
    destruct (labelKeys g), (labelVals g); simpl; intros [= <-];
      by apply Hsame.
  - simplify_eq. apply Hsame. by destruct m.
  - revert H. unfold Counter_Inc.
    destruct (instruments w !! i) as [[c| |]|] eqn:Hi; try done.
    intros [= <-]. simpl. rewrite lookup_insert. case_decide.
    + subst. rewrite Hi in Hj. injection Hj as <-. by eexists.
    + exists x. split; [done|apply same_kind_refl].
  - revert H. unfold Gauge_Update.
    destruct (instruments w !! i) as [[| c |]|] eqn:Hi; try done.
    intros [= <-]. simpl. rewrite lookup_insert. case_decide.
    + subst. rewrite Hi in Hj. injection Hj as <-. by eexists.
    + exists x. split; [done|apply same_kind_refl].
  - revert H. unfold Histogram_Update.
    destruct (instruments w !! i) as [[| | c]|] eqn:Hi; try done.
    intros [= <-]. simpl. rewrite lookup_insert. case_decide.
    + subst. rewrite Hi in Hj. injection Hj as <-. by eexists.
    + exists x. split; [done|apply same_kind_refl].
Qed.

Lemma init_heap_ok : heap_ok init.
Proof.
  split; unfold registered; simpl; intros *; by rewrite lookup_empty.
Qed.

Lemma step_heap_ok o w w' : step o w = Some w' → heap_ok w → heap_ok w'.
Proof.
  intros H [Ha Hi]. split.
  - intros p n i Hr.
    destruct (step_registered o w w' p n i H Hr) as [Hold|(_ & Hnew & _)];
      [|done].
    destruct (Ha p n i Hold) as [x Hx].
    destruct (step_instruments o w w' i x H Hx) as (y & Hy & _). eauto.
  - intros p1 n1 p2 n2 i H1 H2.
    destruct (step_registered o w w' p1 n1 i H H1) as [O1|(N1 & _ & A1)],
             (step_registered o w w' p2 n2 i H H2) as [O2|(N2 & _ & A2)].
    + by eapply Hi.
    + destruct (Ha p1 n1 i O1) as [x Hx]. congruence.
    + destruct (Ha p2 n2 i O2) as [x Hx]. congruence.
    + rewrite A1 in A2. by injection A2 as -> ->.
Qed.

Lemma run_heap_ok ops : ∀ w w',
  run ops w = Some w' → heap_ok w → heap_ok w'.
Proof.
  induction ops as [|o ops IH]; simpl; intros w w' H Hok.
  - by simplify_eq.
  - destruct (step o w) as [w1|] eqn:E; simplify_eq/=.
    eapply IH; [done|]. by eapply step_heap_ok.
Qed.

(** X13.  Instruments are never shared: in every state reached from the
    initial store, two different names of a group, and any names of two
    different groups, hold different allocated instruments, so that an
    increment through one changes nothing that the other reads, nor any
    group, nor the store. *)
Theorem instruments_isolated ops w p1 n1 p2 n2 i1 i2 :
  run ops init = Some w →
  registered w p1 n1 = Some i1 → registered w p2 n2 = Some i2 →
  p1 ≠ p2 ∨ n1 ≠ n2 →
  i1 ≠ i2 ∧ is_Some (instruments w !! i1) ∧ is_Some (instruments w !! i2) ∧
  ∀ delta w', Counter_Inc i1 delta w = Some w' →
              instruments w' !! i2 = instruments w !! i2 ∧
              groups w' = groups w ∧ defaultStore w' = defaultStore w.
Proof.
  intros Hrun H1 H2 Hne.
  assert (heap_ok w) as [Ha Hi] by (eapply run_heap_ok; [done|apply init_heap_ok]).
  assert (i1 ≠ i2) as Hi12.
  { intros <-. destruct (Hi _ _ _ _ _ H1 H2) as [-> ->]. by destruct Hne. }
  split; [done|]. split; [by eapply Ha|]. split; [by eapply Ha|].
  intros delta w'. unfold Counter_Inc.
  destruct (instruments w !! i1) as [[c| |]|]; try done.
  intros [= <-]. simpl. by rewrite lookup_insert_ne.
Qed.

Lemma instruments_isolated_witness :
  let w := default init
    (run [OpNewMetrics "t" ∅; OpNewMetrics "u" ∅;
          OpCounter 1%positive "hits"; OpCounter 2%positive "hits"] init) in
  1%positive ≠ 2%positive ∧
  is_Some (instruments w !! 1%positive) ∧
  is_Some (instruments w !! 2%positive) ∧
  ∀ delta w', Counter_Inc 1%positive delta w = Some w' →
              instruments w' !! 2%positive = instruments w !! 2%positive ∧
              groups w' = groups w ∧ defaultStore w' = defaultStore w.
Proof.
  intros w.
  apply (instruments_isolated
           [OpNewMetrics "t" ∅; OpNewMetrics "u" ∅;
            OpCounter 1%positive "hits"; OpCounter 2%positive "hits"]
           w 1%positive "hits" 2%positive "hits" 1%positive 2%positive).
  - vm_compute. reflexivity.
  - vm_compute. reflexivity.
  - vm_compute. reflexivity.
  - left. lia.
Defined.

(** X14.  [UnregisterAll] detaches the instruments of a group without
    touching them: afterwards [Each] visits nothing, every instrument
    allocated before still holds its state, and [Counter] on any name
    allocates a new counter at zero (not one of the instruments that
    existed before), which is then the one instrument [Each] visits. *)
Theorem UnregisterAll_detaches s key w g :
  groups w !! s = Some g →
  let w1 := UnregisterAll (PtrMetrics s) w in
  metrics_Each s w1 = Some [] ∧
  instruments w1 = instruments w ∧ defaultStore w1 = defaultStore w ∧
  ∃ w2 i,
    Counter s key w1 = Some (w2, i) ∧
    instruments w !! i = None ∧
    instruments w2 !! i = Some (StandardCounter 0) ∧
    (∀ j x, instruments w !! j = Some x → instruments w2 !! j = Some x) ∧
    metrics_Each s w2 = Some [(key, i)].
Proof.
  intros Hg w1.
  assert (groups w1 !! s = Some (clear_registry g)) as Hg1.
  { unfold w1. rewrite UnregisterAll_groups, decide_True by done.
    by rewrite Hg. }
  assert (instruments w1 = instruments w) as Hins by done.
  assert (defaultStore w1 = defaultStore w) as Hds by done.
  clearbody w1. split.
  { unfold metrics_Each. rewrite Hg1. simpl. by rewrite map_to_list_empty. }
  split; [done|]. split; [done|]. rewrite <- Hins.
  destruct (GetOrRegister_new s key NewCounter w1 (clear_registry g) Hg1
              (lookup_empty _)) as (w2 & g2 & HG & Hi & Hg2 & Hr2).
  exists w2, (fresh (dom (instruments w1))). split.
  { unfold Counter. rewrite HG. simpl. by rewrite Hi. }
  split; [apply not_elem_of_dom, is_fresh|].
  split; [done|]. split.
  { intros j x Hj. by eapply GetOrRegister_instruments. }
  revert HG. unfold GetOrRegister. rewrite Hg1. simpl.
  rewrite lookup_empty. intros [= <-]. unfold metrics_Each. simpl.
  rewrite lookup_insert_eq. simpl. rewrite insert_empty.
  by rewrite map_to_list_singleton.
Qed.

Lemma UnregisterAll_detaches_witness :
  let w := demo_world in
  let w1 := UnregisterAll (PtrMetrics 1%positive) w in
  metrics_Each 1%positive w1 = Some [] ∧
  instruments w1 = instruments w ∧ defaultStore w1 = defaultStore w ∧
  ∃ w2 i,
    Counter 1%positive "hits" w1 = Some (w2, i) ∧
    instruments w !! i = None ∧
    instruments w2 !! i = Some (StandardCounter 0) ∧
    (∀ j x, instruments w !! j = Some x → instruments w2 !! j = Some x) ∧
    metrics_Each 1%positive w2 = Some [("hits", i)].
Proof.
  apply (UnregisterAll_detaches 1%positive "hits" demo_world
           (mkMetrics "http" demo_labels None None {["hits" := 1%positive]})).
  vm_compute. reflexivity.
Defined.

(** ** Handles *)

Lemma GetOrRegister_registered_forward s name x w w' i0 p n i :
  GetOrRegister s name x w = Some (w', i0) →
  registered w p n = Some i → registered w' p n = Some i.
Proof.
  unfold GetOrRegister. intros H.
  destruct (groups w !! s) as [g|] eqn:Hg; simplify_eq/=.
  destruct (registry g !! name) as [j|] eqn:Hr; simplify_eq/=; [done|].
  unfold registered. simpl. rewrite lookup_insert. case_decide; [|done].
  subst p. rewrite Hg. simpl. intros Hn.
  rewrite lookup_insert_ne; [done|]. congruence.
Qed.

Lemma step_registered_forward o w w' p n i :
  is_unregister o = false → step o w = Some w' →
  registered w p n = Some i → registered w' p n = Some i.
Proof.
  intros Hu H Hr.
  destruct (accessor_of o) as [[s key]|] eqn:Ha.
  { destruct (accessor_cases o s key w w' Ha H) as (x & i0 & HG).
    by eapply GetOrRegister_registered_forward. }
  destruct o; try done; simpl in H.
  - simplify_eq. exact Hr.
  - simplify_eq. unfold NewMetrics. case_decide; [done|].
    destruct (isExclusion labels0 w); [done|]. cbv zeta.
    destruct (store_metrics (defaultStore w) !! fullName typ0 labels0);
      [done|].
    revert Hr. unfold registered. simpl.
    destruct (groups w !! p) as [g|] eqn:Hg; [|done].
    rewrite lookup_insert_ne; [by rewrite Hg|].
    intros <-. pose proof (fresh_group_unallocated w). congruence.
  - by simplify_eq.
  - revert H Hr. unfold SortedLabels, registered.
    destruct (groups w !! s) as [g|] eqn:Hg; [|done]. simpl.
    destruct (labelKeys g), (labelVals g); simpl; intros [= <-]; simpl;
      try done; rewrite lookup_insert; case_decide; subst;
      by rewrite ?Hg.
  - revert H. unfold Counter_Inc.
    destruct (instruments w !! i0) as [[]|]; try done. intros [= <-].
    exact Hr.
  - revert H. unfold Gauge_Update.
    destruct (instruments w !! i0) as [[]|]; try done. intros [= <-].
    exact Hr.
  - revert H. unfold Histogram_Update.
    destruct (instruments w !! i0) as [[]|]; try done. intros [= <-].
    exact Hr.
Qed.

Lemma run_handle ops : ∀ w w' p n i x,
  no_unregister ops = true → run ops w = Some w' →
  registered w p n = Some i → instruments w !! i = Some x →
  registered w' p n = Some i ∧
  ∃ y, instruments w' !! i = Some y ∧ same_kind x y = true.
Proof.
  induction ops as [|o ops IH]; simpl; intros w w' p n i x Hu H Hr Hx.
  - simplify_eq. split; [done|]. exists x. split; [done|apply same_kind_refl].
  - apply andb_prop in Hu as [Ho Hu]. apply negb_true_iff in Ho.
    destruct (step o w) as [w1|] eqn:E; simplify_eq/=.
    destruct (step_instruments o w w1 i x E Hx) as (y & Hy & Hxy).
    destruct (IH w1 w' p n i y Hu H
                (step_registered_forward o w w1 p n i Ho E Hr) Hy)
      as (Hr' & z & Hz & Hyz).
    split; [done|]. exists z. split; [done|].
    by destruct x, y, z.
Qed.

(** X15.  A handle stays good.  Through any calls other than
    [UnregisterAll] and [ResetAll], a name keeps the instrument it was
    given and the instrument keeps its kind, so that the accessor of that
    kind returns the same instrument and changes nothing, and the two
    other accessors panic on the name. *)
Theorem handle_stable ops w w' p n i x :
  no_unregister ops = true → run ops w = Some w' →
  registered w p n = Some i → instruments w !! i = Some x →
  registered w' p n = Some i ∧
  (∃ y, instruments w' !! i = Some y ∧ same_kind x y = true) ∧
  Counter p n w' = (if is_Counter (Some x) then Some (w', i) else None) ∧
  Gauge p n w' = (if is_Gauge (Some x) then Some (w', i) else None) ∧
  Histogram p n w' = (if is_Histogram (Some x) then Some (w', i) else None).
Proof.
  intros Hu Hrun Hr Hx.
  destruct (run_handle ops w w' p n i x Hu Hrun Hr Hx)
    as (Hr' & y & Hy & Hxy).
  split; [done|]. split; [eauto|].
  assert (∃ g, groups w' !! p = Some g ∧ registry g !! n = Some i)
    as (g & Hg & Hn).
  { revert Hr'. unfold registered.
    destruct (groups w' !! p) as [g|]; [|done]. eauto. }
  assert (∀ is_T x0, get_as is_T x0 p n w'
            = if is_T (Some y) then Some (w', i) else None) as Hacc.
  { intros is_T x0. unfold get_as.
    rewrite (GetOrRegister_registered p n x0 w' g i Hg Hn). simpl.
    by rewrite Hy. }
  split; [|split].
  - rewrite (Hacc is_Counter NewCounter : Counter p n w' = _).
    by destruct x, y.
  - rewrite (Hacc is_Gauge NewGauge : Gauge p n w' = _).
    by destruct x, y.
  - rewrite (Hacc is_Histogram (NewHistogram (NewUniformSample 100))
               : Histogram p n w' = _).
    by destruct x, y.
Qed.

Lemma handle_stable_witness :
  let w := default init
    (run [OpNewMetrics "t" ∅; OpCounter 1%positive "hits"] init) in
  let ops := [OpInc 1%positive 3; OpSetStatsMatcher true [];
              OpGauge 1%positive "load"; OpNewMetrics "u" ∅;
              OpInc 1%positive 4] in
  let w' := default init (run ops w) in
  registered w' 1%positive "hits" = Some 1%positive ∧
  (∃ y, instruments w' !! 1%positive = Some y ∧
        same_kind (StandardCounter 0) y = true) ∧
  Counter 1%positive "hits" w' = Some (w', 1%positive) ∧
  Gauge 1%positive "hits" w' = None ∧
  Histogram 1%positive "hits" w' = None.
Proof.
  intros w ops w'.
  apply (handle_stable ops w w' 1%positive "hits" 1%positive
           (StandardCounter 0)).
  - reflexivity.
  - vm_compute. reflexivity.
  - vm_compute. reflexivity.
  - vm_compute. reflexivity.
Defined.

(** ** Composition of calls *)

Lemma step_table_size o w w' :
  is_reset o = false → step o w = Some w' →
  (size (store_metrics (defaultStore w))
   ≤ size (store_metrics (defaultStore w')))%nat.
Proof.
  intros Hr H. apply map_subseteq_size, map_subseteq_spec.
  intros name m Hn. by eapply step_table_mono.
Qed.

(** X16.  Groups are never dropped one by one: through any calls other
    than [ResetAll], policy changes and [UnregisterAll] included,
    whatever [GetAll] listed it still lists, under the same identity, and
    the table does not shrink. *)
Theorem tracked_until_reset ops w w' :
  no_reset ops = true → run ops w = Some w' →
  (∀ name m, store_metrics (defaultStore w) !! name = Some m →
             store_metrics (defaultStore w') !! name = Some m) ∧
  (∀ m, m ∈ GetAll w → m ∈ GetAll w') ∧
  (length (GetAll w) ≤ length (GetAll w'))%nat.
Proof.
  intros Hnr Hrun.
  assert (∀ name m, store_metrics (defaultStore w) !! name = Some m →
            store_metrics (defaultStore w') !! name = Some m) as Hmono.
  { intros name m. by apply (run_table_mono ops). }
  split; [done|]. split.
  - intros m [name Hn]%GetAll_elem. apply GetAll_elem. eauto.
  - unfold GetAll. rewrite !length_fmap, !length_map_to_list.
    by apply map_subseteq_size, map_subseteq_spec.
Qed.

Lemma tracked_until_reset_witness :
  let w := (NewMetrics "http" demo_labels init).1 in
  (∀ name m, store_metrics (defaultStore w) !! name = Some m →
             store_metrics (defaultStore demo_world) !! name = Some m) ∧
  (∀ m, m ∈ GetAll w → m ∈ GetAll demo_world) ∧
  (length (GetAll w) ≤ length (GetAll demo_world))%nat.
Proof.
  intros w. apply (tracked_until_reset demo_ops w demo_world).
  - reflexivity.
  - vm_compute. reflexivity.
Defined.

(** X17.  [NewMetrics] is idempotent in every case, the error and the
    exclusion included: repeating a call right away changes nothing more
    and returns what the first call returned. *)
Theorem NewMetrics_twice typ (labels : gmap string string) w :
  NewMetrics typ labels (NewMetrics typ labels w).1
  = NewMetrics typ labels w.
Proof.
  destruct (decide (maxLabelCount < size labels)%nat) as [Hl|Hl].
  { rewrite (NewMetrics_limit typ labels w) by done. simpl.
    by rewrite NewMetrics_limit. }
  destruct (isExclusion labels w) eqn:He.
  { rewrite (NewMetrics_excluded typ labels w) by (done || lia). simpl.
    by rewrite NewMetrics_excluded by (done || lia). }
  destruct (store_metrics (defaultStore w) !! fullName typ labels)
    as [m|] eqn:Hm.
  { rewrite (NewMetrics_found typ labels w m) by (done || lia). simpl.
    by rewrite (NewMetrics_found _ _ _ m) by (done || lia). }
  pose proof (NewMetrics_isExclusion typ labels labels w) as He1.
  rewrite He in He1. revert He1.
  rewrite NewMetrics_created by (done || lia). cbv zeta. simpl. intros He1.
  apply NewMetrics_found; [lia|done|]. simpl. by rewrite lookup_insert_eq.
Qed.
